(** * Assumption-free anomaly scoring (healthmonitordaemon/assumption_free.py)

    A shallow embedding of the scoring core of the health monitor: the SAX
    discretizer, the combination catalog, the frequency counter, the bitmap
    builder, the distance and the two-window controller [detect].

    Modelling conventions.
    - The source is Python 2 with true division.  Its floats are exact
      rationals ([Q]) here; rounding, overflow and infinite datapoints of
      IEEE arithmetic are not modelled.  The one NaN the code can produce
      from rational inputs, the mean of an empty array, is modelled as
      [None].
    - Sizes and indices are [nat]; negative sizes are excluded by the type.
    - Exceptions are the constructors of [error]; a function that can raise
      returns a [result].
    - Library functions of numpy and scipy that have no rational definition
      ([sqrt], [norm.ppf]) are parameters of the development; the theorems
      hold for every choice of them.
    - A dict is a [gmap], a set is a [gset], a numpy matrix is its shape
      together with its row-major buffer. *)

From Stdlib Require Import QArith Lia Lqa.
From Stdlib Require Import Ascii String.
From stdpp Require Import gmap strings list fin_maps sorting.

Local Open Scope nat_scope.

(** ** Exceptions *)

Inductive error := ValueError | IndexError | KeyError | ZeroDivisionError.

Inductive result (A : Type) :=
| Ok (a : A)
| Raise (e : error).
Arguments Ok {A} a.
Arguments Raise {A} e.

#[global] Instance result_ret : MRet result := λ A a, Ok a.
#[global] Instance result_bind : MBind result := λ A B k r,
  match r with
  | Ok a => k a
  | Raise e => Raise e
  end.

Definition from_option {A} (e : error) (o : option A) : result A :=
  match o with
  | Some a => Ok a
  | None => Raise e
  end.

(** ** Rational arithmetic helpers *)

Definition Qlt_bool (x y : Q) : bool := negb (Qle_bool y x).

Definition Q_of_nat (n : nat) : Q := inject_Z (Z.of_nat n).

Definition Qsum (l : list Q) : Q := foldr Qplus 0%Q l.

(** [np.mean]: the mean of an empty array is NaN ([None]). *)
Definition np_mean (l : list Q) : option Q :=
  match l with
  | [] => None
  | _ => Some (Qsum l / Q_of_nat (length l))%Q
  end.

(** A breakpoint is a rational or the [np.Inf] sentinel. *)
Inductive bound :=
| Fin (q : Q)
| Inf.

(** [breakpoint > section_mean] *)
Definition above (m : Q) (b : bound) : bool :=
  match b with
  | Fin q => Qlt_bool m q
  | Inf => true
  end.

(** [np.where(mask)[0][0]]: the first index at which the mask holds. *)
Fixpoint where_first {A} (f : A → bool) (l : list A) : option nat :=
  match l with
  | [] => None
  | x :: l' => if f x then Some 0 else S <$> where_first f l'
  end.

(** [np.linspace(start, stop, num)] *)
Definition linspace (start stop : Q) (num : nat) : list Q :=
  match num with
  | 0 => []
  | 1 => [start]
  | _ => let step := ((stop - start) / Q_of_nat (num - 1))%Q in
         (λ i, (start + Q_of_nat i * step)%Q) <$> seq 0 num
  end.

(** [np.array_split(ary, n)] for [0 < n]: the first [len mod n] sections
    hold [len / n + 1] elements, the others [len / n]. *)
Fixpoint take_sections {A} (sizes : list nat) (l : list A) : list (list A) :=
  match sizes with
  | [] => []
  | s :: sizes' => take s l :: take_sections sizes' (drop s l)
  end.

Definition array_split {A} (l : list A) (n : nat) : list (list A) :=
  let each := length l / n in
  let extras := length l mod n in
  take_sections (replicate extras (S each) ++ replicate (n - extras) each) l.

(** [string.ascii_letters] *)
Definition ascii_letters : string :=
  "abcdefghijklmnopqrstuvwxyzABCDEFGHIJKLMNOPQRSTUVWXYZ".

(** ** The SAX discretizer *)

Section Sax.
(** [numpy.sqrt] and [scipy.stats.norm.ppf] *)
Variable np_sqrt : Q → Q.
Variable norm_ppf : Q → Q.

(** [ndarray.std]: the square root of the mean squared deviation. *)
Definition np_std (l : list Q) : option Q :=
  m ← np_mean l;
  v ← np_mean ((λ x, (x - m) * (x - m))%Q <$> l);
  Some (np_sqrt v).

(** Scale data to have a mean of 0 and a standard deviation of 1.  On an
    empty array both statistics are NaN and the array stays empty. *)
Definition scale (data : list Q) : list Q :=
  match np_mean data with
  | None => data
  | Some m =>
      let scaled_data := (λ x, (x - m)%Q) <$> data in
      match np_std scaled_data with
      | None => scaled_data
      | Some std =>
          if negb (Qeq_bool std 0) then (λ x, (x * (1 / std))%Q) <$> scaled_data
          else scaled_data
      end
  end.

Definition breakpoints (alphbt_size : nat) : result (list bound) :=
  if alphbt_size =? 0 then Raise ZeroDivisionError
  else
    let lo := (1 / Q_of_nat alphbt_size)%Q in
    Ok ((Fin ∘ norm_ppf <$> linspace lo (1 - lo) (alphbt_size - 1)) ++ [Inf]).

(** The bucket of one section: a NaN mean is above no breakpoint, and the
    index into the empty result raises. *)
Definition section_location (bps : list bound) (section : list Q) : result nat :=
  match np_mean section with
  | None => Raise IndexError
  | Some section_mean => from_option IndexError (where_first (above section_mean) bps)
  end.

Definition letter (ind : nat) : result ascii :=
  from_option IndexError (String.get ind ascii_letters).

(** [data] is a list, hence always of shape (n,): the first guard of the
    source cannot fire. *)
Definition _sax (data : list Q) (alphbt_size word_size : nat) : result string :=
  if word_size =? 0 then Raise ZeroDivisionError
  else if negb (length data mod word_size =? 0) then Raise ValueError
  else
    let scaled_data := scale data in
    bps ← breakpoints alphbt_size;
    let sections := array_split scaled_data word_size in
    section_locations ← mapM (section_location bps) sections;
    letters ← mapM letter section_locations;
    Ok (string_of_list_ascii letters).
End Sax.

(** ** Matrices (numpy arrays of two dimensions) *)

Record matrix := Matrix { rows : nat; cols : nat; cells : list Q }.

(** [np.zeros(shape=(r, c))] *)
Definition np_zeros (r c : nat) : matrix := Matrix r c (replicate (r * c) 0%Q).

(** [m[i, j]] *)
Definition getitem (m : matrix) (i j : nat) : result Q :=
  if (i <? rows m) && (j <? cols m)
  then from_option IndexError (cells m !! (i * cols m + j))
  else Raise IndexError.

(** [m[i, j] = v] *)
Definition setitem (m : matrix) (i j : nat) (v : Q) : result matrix :=
  if (i <? rows m) && (j <? cols m)
  then Ok (Matrix (rows m) (cols m) (<[i * cols m + j := v]> (cells m)))
  else Raise IndexError.

(** [np.power(mtrx_a - mtrx_b, 2).sum()].  Only operands of one shape are
    modelled; numpy's broadcasting of unequal shapes is not, and raises
    here. *)
Definition _dist (mtrx_a mtrx_b : matrix) : result Q :=
  if (rows mtrx_a =? rows mtrx_b) && (cols mtrx_a =? cols mtrx_b)
  then Ok (Qsum (zip_with (λ a b, ((a - b) ^ 2)%Q) (cells mtrx_a) (cells mtrx_b)))
  else Raise ValueError.

(** ** Combination catalog and frequency counter *)

(** Every way of taking one element out of a list, by position. *)
Fixpoint picks {A} (l : list A) : list (A * list A) :=
  match l with
  | [] => []
  | x :: l' => (x, l') :: ((λ p, (p.1, x :: p.2)) <$> picks l')
  end.

(** [itertools.permutations(pool, r)]: the arrangements of [r] elements at
    distinct positions, in lexicographic order of the positions. *)
Fixpoint permutations {A} (r : nat) (pool : list A) : list (list A) :=
  match r with
  | 0 => [[]]
  | S r' => p ← picks pool; cons p.1 <$> permutations r' p.2
  end.

Definition _build_combinations (alphabet : string) (combination_len : nat) : gset string :=
  let ret_val := string_of_list_ascii <$>
                   permutations combination_len (list_ascii_of_string alphabet) in
  let ret_val := ret_val ++
                   ((λ c, string_of_list_ascii [c; c]) <$> list_ascii_of_string alphabet) in
  list_to_set ret_val.

Definition _count_substr (stack needle : string) : nat :=
  foldl (λ count i,
           if String.eqb (substring i (String.length needle) stack) needle
           then count + 1 else count)
        0 (seq 0 (String.length stack + 1 - String.length needle)).

Definition _count_frequencies (words : list string) (alphabet : string)
    (subword_len : nat) : gmap string Q :=
  let combinations := _build_combinations alphabet subword_len in
  let freqs := gset_to_gmap 0%Q combinations in
  foldl (λ freqs word,
           map_imap (λ key v, Some (v + Q_of_nat (_count_substr word key))%Q) freqs)
        freqs words.

(** The occurrences of a key over all the words (specification side). *)
Definition total_count (words : list string) (key : string) : nat :=
  sum_list_with (λ word, _count_substr word key) words.

(** ** Bitmap builder *)

(** The loop of [_build_bitmap] over the ordered keys, with its two
    counters. *)
Fixpoint fill_bitmap (freqs : gmap string Q) (norm_factor : Q) (matrix_size : nat)
    (ordered_keys : list string) (i j : nat) (bitmap : matrix) : result matrix :=
  match ordered_keys with
  | [] => Ok bitmap
  | key :: ordered_keys' =>
      let j := j mod matrix_size in
      v ← from_option KeyError (freqs !! key);
      bitmap ← setitem bitmap i j
                 (if negb (Qeq_bool norm_factor 0) then (v / norm_factor)%Q else v);
      let j := j + 1 in
      let i := if j =? matrix_size then i + 1 else i in
      fill_bitmap freqs norm_factor matrix_size ordered_keys' i j bitmap
  end.

(** [sorted(freqs.keys())] *)
Definition sorted_keys (freqs : gmap string Q) : list string :=
  merge_sort String.le (map_to_list freqs).*1.

(** The float [sqrt(len(freqs))] is an integer exactly when the integer
    square root is exact.  The numpy of the source takes this float as a
    dimension of the matrix and as an index into it. *)
Definition _build_bitmap (freqs : gmap string Q) (norm_factor : Q) : result matrix :=
  let matrix_size := Nat.sqrt (size freqs) in
  if negb (matrix_size * matrix_size =? size freqs) then Raise ValueError
  else
    let bitmap := np_zeros matrix_size matrix_size in
    let ordered_keys := sorted_keys freqs in
    fill_bitmap freqs norm_factor matrix_size ordered_keys 0 0 bitmap.

(** The builtin [max] of a list: the first greatest element; raises on an
    empty list. *)
Definition py_max (l : list Q) : result Q :=
  match l with
  | [] => Raise ValueError
  | x :: l' => Ok (foldl (λ m y, if Qlt_bool m y then y else m) x l')
  end.

(** [freqs.values()] *)
Definition values (freqs : gmap string Q) : list Q := (map_to_list freqs).*2.

(** ** Windows *)

(** [collections.deque(maxlen=n)] *)
Record deque := Deque { items : list Q; maxlen : nat }.

Definition deque_append (d : deque) (x : Q) : deque :=
  if maxlen d =? 0 then d
  else if length (items d) =? maxlen d then Deque (drop 1 (items d) ++ [x]) (maxlen d)
  else Deque (items d ++ [x]) (maxlen d).

Definition deque_popleft (d : deque) : result (Q * deque) :=
  match items d with
  | [] => Raise IndexError
  | x :: l => Ok (x, Deque l (maxlen d))
  end.

(** [itertools.islice(window, init, end)] *)
Definition islice {A} (l : list A) (init end_ : nat) : list A :=
  take (end_ - init) (drop init l).

Record Analysis := mkAnalysis { score : Q; bitmp1 : matrix; bitmp2 : matrix }.

Record AssumptionFreeAA := mkAA {
  _word_size : nat;
  _window_size : nat;
  universe_size : nat;
  _lead_window : deque;
  _lag_window : deque;
  _recursion_level : nat;
  _alphabet : string
}.

(** [AssumptionFreeAA.__init__] *)
Definition init (word_size window_factor lead_window_factor lag_window_factor : nat)
    : AssumptionFreeAA :=
  let window_size := window_factor * word_size in
  let lead_window_size := lead_window_factor * window_size in
  let lag_window_size := lag_window_factor * window_size in
  {| _word_size := word_size;
     _window_size := window_size;
     universe_size := lead_window_size + lag_window_size;
     _lead_window := Deque [] lead_window_size;
     _lag_window := Deque [] lag_window_size;
     _recursion_level := 2;
     _alphabet := "abcd" |}.

Definition set_windows (self : AssumptionFreeAA) (lead lag : deque) : AssumptionFreeAA :=
  {| _word_size := _word_size self;
     _window_size := _window_size self;
     universe_size := universe_size self;
     _lead_window := lead;
     _lag_window := lag;
     _recursion_level := _recursion_level self;
     _alphabet := _alphabet self |}.

Definition full (d : deque) : bool := length (items d) =? maxlen d.

Section Detector.
Variable np_sqrt : Q → Q.
Variable norm_ppf : Q → Q.

(** [_sax] is called with its default [alphbt_size=4]. *)
Definition _get_words (window : deque) (feature_size word_size : nat)
    : result (list string) :=
  if feature_size =? 0 then Raise ZeroDivisionError
  else
    let factor := length (items window) / feature_size in
    mapM (λ i,
            let window_slice := islice (items window) (i * feature_size)
                                  ((i + 1) * feature_size) in
            _sax np_sqrt norm_ppf window_slice 4 word_size)
         (seq 0 factor).

Definition get_lead_words (self : AssumptionFreeAA) : result (list string) :=
  _get_words (_lead_window self) (_window_size self) (_word_size self).

Definition get_lag_words (self : AssumptionFreeAA) : result (list string) :=
  _get_words (_lag_window self) (_window_size self) (_word_size self).

Definition count_frequencies (self : AssumptionFreeAA) (words : list string)
    : gmap string Q :=
  _count_frequencies words (_alphabet self) (_recursion_level self).

(** The scoring step: the body of the second conditional of [detect]. *)
Definition analyse (self : AssumptionFreeAA) : result Analysis :=
  lead_words ← get_lead_words self;
  lag_words ← get_lag_words self;
  let lead_freqs := count_frequencies self lead_words in
  let lag_freqs := count_frequencies self lag_words in
  norm_factor ← py_max (values lead_freqs ++ values lag_freqs);
  lead_bitmap ← _build_bitmap lead_freqs norm_factor;
  lag_bitmap ← _build_bitmap lag_freqs norm_factor;
  score ← _dist lead_bitmap lag_bitmap;
  let score := (score / Q_of_nat (rows lead_bitmap * cols lead_bitmap))%Q in
  Ok (mkAnalysis score lead_bitmap lag_bitmap).

(** One iteration of the loop of [detect]. *)
Definition detect_step (st : AssumptionFreeAA * list Analysis) (datapoint : Q)
    : result (AssumptionFreeAA * list Analysis) :=
  let '(self, analysis_result) := st in
  self ← (if full (_lead_window self)
          then p ← deque_popleft (_lead_window self);
               Ok (set_windows self p.2 (deque_append (_lag_window self) p.1))
          else Ok self);
  let self := set_windows self (deque_append (_lead_window self) datapoint)
                (_lag_window self) in
  if full (_lead_window self) && full (_lag_window self)
  then result ← analyse self; Ok (self, analysis_result ++ [result])
  else Ok (self, analysis_result).

Fixpoint detect_loop (st : AssumptionFreeAA * list Analysis) (datapoints : list Q)
    : result (AssumptionFreeAA * list Analysis) :=
  match datapoints with
  | [] => Ok st
  | datapoint :: datapoints' => st ← detect_step st datapoint; detect_loop st datapoints'
  end.

(** [detect] returns the analyses; the detector it leaves behind is
    returned with them. *)
Definition detect (self : AssumptionFreeAA) (datapoints : list Q)
    : result (AssumptionFreeAA * list Analysis) :=
  detect_loop (self, []) datapoints.
End Detector.

(** ** Specification-side definitions *)


(** The configuration [__init__] gives a detector; [detect] never changes
    it. *)
Definition configured (word_size window_factor : nat) (self : AssumptionFreeAA) : Prop :=
  _word_size self = word_size ∧
  _window_size self = window_factor * word_size ∧
  _recursion_level self = 2 ∧
  _alphabet self = "abcd".

(** The state of the windows of a detector that has seen [t] datapoints. *)
Definition tracks (word_size window_factor lead_window_factor lag_window_factor : nat)
    (t : nat) (self : AssumptionFreeAA) : Prop :=
  let lead_size := lead_window_factor * (window_factor * word_size) in
  let lag_size := lag_window_factor * (window_factor * word_size) in
  configured word_size window_factor self ∧
  universe_size self = lead_size + lag_size ∧
  maxlen (_lead_window self) = lead_size ∧
  maxlen (_lag_window self) = lag_size ∧
  length (items (_lead_window self)) = t `min` lead_size ∧
  length (items (_lag_window self)) = (t - lead_size) `min` lag_size.


(** The detector [__init__] builds, after it has been fed [datapoints]:
    the lead window holds the latest datapoints, the lag window the ones
    just before them. *)
Definition detector_after (word_size window_factor lead_window_factor lag_window_factor : nat)
    (datapoints : list Q) : AssumptionFreeAA :=
  let lead_size := lead_window_factor * (window_factor * word_size) in
  let lag_size := lag_window_factor * (window_factor * word_size) in
  let n := length datapoints in
  set_windows (init word_size window_factor lead_window_factor lag_window_factor)
    (Deque (drop (n - lead_size) datapoints) lead_size)
    (Deque (drop (n - (lead_size + lag_size)) (take (n - lead_size) datapoints)) lag_size).



(** ** Instances of the numeric parameters, for running the model *)

(** The square root, to ten decimal places. *)
Definition sqrt_approx (q : Q) : Q :=
  (Z.sqrt (Qnum q * Z.pos (Qden q) * 10 ^ 20) # (Qden q * 10 ^ 10))%Q.

(** [norm.ppf] at the quantiles 1/4, 1/2 and 3/4 that the default alphabet
    of four letters uses; the detector asks for no other. *)
Definition ppf_quartiles (p : Q) : Q :=
  if Qeq_bool p (1 # 4) then (-6744897501960817 # 10000000000000000)%Q
  else if Qeq_bool p (3 # 4) then (6744897501960817 # 10000000000000000)%Q
  else 0%Q.


(** ** Generic facts on the error monad *)

Lemma bind_Ok {A B} (r : result A) (k : A → result B) b :
  r ≫= k = Ok b ↔ ∃ a, r = Ok a ∧ k a = Ok b.
Proof.
  destruct r as [a|e]; simpl; split.
  - eauto.
  - by intros (? & [= <-] & ?).
  - done.
  - by intros (? & [=] & ?).
Qed.

Lemma mapM_Ok_intro {A B} (f : A → result B) (P : A → B → Prop) l :
  Forall (λ x, ∃ y, f x = Ok y ∧ P x y) l →
  ∃ ys, mapM f l = Ok ys ∧ Forall2 P l ys.
Proof.
  induction 1 as [|x l (y & Hy & HP) _ (ys & Hys & HF)]; simpl.
  - by exists [].
  - exists (y :: ys). rewrite Hy. simpl. rewrite Hys. simpl. by split; [|constructor].
Qed.

Lemma Forall2_snd {A B} (P : B → Prop) (l : list A) (k : list B) :
  Forall2 (λ _ y, P y) l k → Forall P k.
Proof. induction 1; constructor; auto. Qed.

(** ** Facts on the discretizer *)

Lemma linspace_length start stop num : length (linspace start stop num) = num.
Proof.
  destruct num as [|[|n]]; [done..|].
  unfold linspace. by rewrite length_fmap, length_seq.
Qed.

Lemma where_first_bound {A} (f : A → bool) l i :
  where_first f l = Some i → i < length l.
Proof.
  revert i. induction l as [|x l IH]; intros i; simpl; [done|].
  destruct (f x); [intros [= <-]; lia|].
  destruct (where_first f l) as [i'|]; simpl; [|done].
  intros [= <-]. specialize (IH i' eq_refl). lia.
Qed.

Lemma where_first_sentinel {A} (f : A → bool) l x :
  f x = true → is_Some (where_first f (l ++ [x])).
Proof.
  intros Hx. induction l as [|y l [i Hi]]; simpl.
  - rewrite Hx. eauto.
  - destruct (f y); [eauto|]. rewrite Hi. simpl. eauto.
Qed.

Lemma take_sections_replicate {A} n k (l : list A) :
  n * k ≤ length l →
  length (take_sections (replicate n k) l) = n ∧
  Forall (λ s, length s = k) (take_sections (replicate n k) l).
Proof.
  revert l. induction n as [|n IH]; intros l Hl; simpl.
  - by split.
  - destruct (IH (drop k l)) as [IH1 IH2].
    { rewrite length_drop. lia. }
    split; [by rewrite IH1|].
    constructor; [|done]. rewrite length_take. lia.
Qed.

Lemma array_split_exact {A} (l : list A) n k :
  0 < n → length l = k * n →
  length (array_split l n) = n ∧ Forall (λ s, length s = k) (array_split l n).
Proof.
  intros Hn Hl. unfold array_split.
  rewrite Hl, Nat.Div0.mod_mul, Nat.div_mul by lia.
  simpl. rewrite Nat.sub_0_r. apply take_sections_replicate. lia.
Qed.

Lemma string_of_list_ascii_length l :
  String.length (string_of_list_ascii l) = length l.
Proof. induction l; simpl; auto. Qed.

Lemma np_mean_is_Some l : l ≠ [] → is_Some (np_mean l).
Proof. destruct l; [done|]. by eexists. Qed.

Section SaxFacts.
Variable np_sqrt : Q → Q.
Variable norm_ppf : Q → Q.

Lemma scale_length data : length (scale np_sqrt data) = length data.
Proof.
  unfold scale. destruct (np_mean data); [|done].
  destruct (np_std _ _); [|by rewrite length_fmap].
  destruct (negb _); by rewrite !length_fmap.
Qed.

Lemma breakpoints_Ok alphbt_size :
  0 < alphbt_size →
  ∃ bps, breakpoints norm_ppf alphbt_size = Ok (bps ++ [Inf]) ∧
         length bps = alphbt_size - 1.
Proof.
  intros Ha. unfold breakpoints.
  destruct (Nat.eqb_spec alphbt_size 0) as [->|_]; [lia|].
  eexists. split; [done|]. by rewrite length_fmap, linspace_length.
Qed.

Lemma section_location_Ok bps section :
  section ≠ [] →
  ∃ ind, section_location (bps ++ [Inf]) section = Ok ind ∧ ind ≤ length bps.
Proof.
  intros Hs. unfold section_location.
  destruct (np_mean_is_Some section Hs) as [m ->].
  destruct (where_first_sentinel (above m) bps Inf eq_refl) as [ind Hind].
  exists ind. rewrite Hind. split; [done|].
  apply where_first_bound in Hind. rewrite length_app in Hind. simpl in Hind. lia.
Qed.

Lemma letter_Ok ind :
  ind < 52 →
  ∃ c, letter ind = Ok c ∧ list_ascii_of_string ascii_letters !! ind = Some c.
Proof.
  intros Hind. unfold letter.
  do 52 (destruct ind as [|ind]; [by eexists|]). lia.
Qed.

End SaxFacts.

Section SaxShape.
Variable np_sqrt : Q → Q.
Variable norm_ppf : Q → Q.

(** On its domain the discretizer returns one letter for each section,
    each among the first [alphbt_size] letters. *)
Lemma sax_Ok data alphbt_size word_size k :
  0 < word_size → 0 < k → 0 < alphbt_size ≤ 52 →
  length data = k * word_size →
  ∃ letters,
    _sax np_sqrt norm_ppf data alphbt_size word_size = Ok (string_of_list_ascii letters) ∧
    length letters = word_size ∧
    Forall (λ c, c ∈ take alphbt_size (list_ascii_of_string ascii_letters)) letters.
Proof.
  intros Hws Hk [Ha Ha52] Hlen. unfold _sax.
  destruct (Nat.eqb_spec word_size 0) as [->|_]; [lia|].
  rewrite Hlen, Nat.Div0.mod_mul. simpl negb. cbv iota.
  destruct (breakpoints_Ok norm_ppf alphbt_size Ha) as (bps & -> & Hbps). simpl.
  destruct (array_split_exact (scale np_sqrt data) word_size k Hws) as [Hn Hsec].
  { by rewrite scale_length. }
  destruct (mapM_Ok_intro (section_location (bps ++ [Inf]))
              (λ _ ind, ind < alphbt_size) (array_split (scale np_sqrt data) word_size))
    as (locs & -> & Hlocs).
  { eapply Forall_impl; [exact Hsec|]. intros s Hs. simpl in Hs.
    destruct (section_location_Ok bps s) as (ind & Hind & Hle).
    { intros ->. simpl in Hs. lia. }
    exists ind. split; [done|]. lia. }
  simpl.
  destruct (mapM_Ok_intro letter
              (λ ind c, c ∈ take alphbt_size (list_ascii_of_string ascii_letters)) locs)
    as (letters & -> & Hletters).
  { pose proof (Forall2_snd _ _ _ Hlocs) as Hl. eapply Forall_impl; [exact Hl|].
    intros ind Hind. simpl in Hind.
    destruct (letter_Ok ind) as (c & Hc & Hget); [lia|].
    exists c. split; [done|]. apply list_elem_of_lookup. exists ind.
    by rewrite lookup_take_lt. }
  simpl. exists letters. split; [done|]. split.
  - apply Forall2_length in Hlocs, Hletters. lia.
  - by apply Forall2_snd in Hletters.
Qed.

End SaxShape.



(** The other guards of the discretizer. *)
Example sax_ragged_segment :
  _sax sqrt_approx ppf_quartiles [1; 2; 3]%Q 4 2 = Raise ValueError.
Proof. reflexivity. Qed.

Example sax_zero_word_size :
  _sax sqrt_approx ppf_quartiles [1; 2]%Q 4 0 = Raise ZeroDivisionError.
Proof. reflexivity. Qed.

Example sax_zero_alphabet :
  _sax sqrt_approx ppf_quartiles [1; 2]%Q 0 2 = Raise ZeroDivisionError.
Proof. reflexivity. Qed.

Example sax_ramp : _sax sqrt_approx ppf_quartiles [1; 2; 3; 4; 5; 6; 7; 8]%Q 4 4 = Ok "abcd".
Proof. reflexivity. Qed.

(** ** Facts on the combination catalog *)

Lemma picks_fst {A} (l : list A) : (picks l).*1 = l.
Proof.
  induction l as [|x l IH]; simpl; [done|].
  f_equal. rewrite <- list_fmap_compose. etrans; [|exact IH].
  by apply list_fmap_ext.
Qed.

Lemma picks_Permutation {A} (l : list A) x r : (x, r) ∈ picks l → l ≡ₚ x :: r.
Proof.
  revert x r. induction l as [|y l IH]; intros x r; simpl.
  - by intros ?%elem_of_nil.
  - intros [[= -> ->]|([x' r'] & [= -> ->] & Hin)%list_elem_of_fmap]%elem_of_cons; [done|].
    simpl. rewrite (IH _ _ Hin). apply perm_swap.
Qed.

Lemma picks_elem {A} (l : list A) x : x ∈ l → ∃ r, (x, r) ∈ picks l.
Proof.
  intros Hx. rewrite <- (picks_fst l) in Hx.
  apply list_elem_of_fmap in Hx as ([x' r] & -> & Hin). eauto.
Qed.

Lemma picks_length {A} (l : list A) : length (picks l) = length l.
Proof. by rewrite <- (picks_fst l) at 2; rewrite length_fmap. Qed.

Lemma picks_NoDup {A} (l : list A) : NoDup l → NoDup (picks l).
Proof. intros Hl. apply (NoDup_fmap_1 fst). by rewrite picks_fst. Qed.

Lemma picks_fst_inj {A} (l : list A) p q :
  NoDup l → p ∈ picks l → q ∈ picks l → p.1 = q.1 → p = q.
Proof.
  intros Hl. rewrite <- (picks_fst l) in Hl. revert Hl.
  generalize (picks l). intros ps. induction ps as [|a ps IH]; simpl.
  - by intros _ ?%elem_of_nil.
  - intros [Ha Hps]%NoDup_cons [->|Hp]%elem_of_cons [->|Hq]%elem_of_cons Heq; auto.
    + destruct Ha. rewrite Heq. by apply list_elem_of_fmap_2.
    + destruct Ha. rewrite <- Heq. by apply list_elem_of_fmap_2.
Qed.

Lemma bind_length_const {A B} (f : A → list B) (l : list A) c :
  Forall (λ x, length (f x) = c) l → length (l ≫= f) = length l * c.
Proof.
  induction 1 as [|x l Hx _ IH]; [done|].
  rewrite bind_cons, length_app, Hx, IH. simpl. lia.
Qed.

Lemma permutations_NoDup {A} r (l : list A) : NoDup l → NoDup (permutations r l).
Proof.
  revert l. induction r as [|r IH]; intros l Hl; simpl.
  - apply NoDup_singleton.
  - apply NoDup_bind; [| |by apply picks_NoDup].
    + intros p q s Hp Hq (s1 & -> & _)%list_elem_of_fmap (s2 & [= H1 _] & _)%list_elem_of_fmap.
      by apply (picks_fst_inj l).
    + intros [x rest] Hp. simpl. apply (NoDup_fmap_2 _). apply IH.
      apply picks_Permutation in Hp. rewrite Hp in Hl. by apply NoDup_cons in Hl as [_ ?].
Qed.

Lemma permutations_1 {A} (l : list A) : permutations 1 l = (λ x, [x]) <$> l.
Proof.
  rewrite <- (picks_fst l) at 2.
  change (permutations 1 l) with (picks l ≫= λ p, [[p.1]]).
  generalize (picks l). intros ps.
  induction ps as [|p ps IH]; [done|]. by rewrite bind_cons, IH.
Qed.

Lemma permutations_2_length {A} (l : list A) :
  length (permutations 2 l) = length l * (length l - 1).
Proof.
  change (permutations 2 l) with (picks l ≫= λ p, cons p.1 <$> permutations 1 p.2).
  rewrite (bind_length_const _ _ (length l - 1)), picks_length; [done|].
  apply Forall_forall. intros [x r] Hp. cbn [fst snd].
  rewrite length_fmap, permutations_1, length_fmap.
  apply picks_Permutation, Permutation_length in Hp. simpl in Hp. lia.
Qed.

Lemma elem_of_permutations_2 {A} (l : list A) s :
  s ∈ permutations 2 l ↔ ∃ x r y, (x, r) ∈ picks l ∧ y ∈ r ∧ s = [x; y].
Proof.
  change (permutations 2 l) with (picks l ≫= λ p, cons p.1 <$> permutations 1 p.2).
  rewrite list_elem_of_bind. split.
  - intros ([x r] & (t & -> & Ht)%list_elem_of_fmap & Hp). cbn [fst snd] in *.
    rewrite permutations_1 in Ht. apply list_elem_of_fmap in Ht as (y & -> & Hy).
    eauto 6.
  - intros (x & r & y & Hp & Hy & ->). exists (x, r). split; [|done]. cbn [fst snd].
    apply list_elem_of_fmap. exists [y]. split; [done|].
    rewrite permutations_1. apply list_elem_of_fmap. eauto.
Qed.

#[global] Instance string_of_list_ascii_inj : Inj (=) (=) string_of_list_ascii.
Proof.
  intros l1 l2 Heq.
  by rewrite <- (list_ascii_of_string_of_list_ascii l1), Heq,
       list_ascii_of_string_of_list_ascii.
Qed.

(** The catalog for subwords of length two holds every two-letter string
    over the alphabet, and nothing else. *)
Lemma elem_of_build_combinations_2 alphabet s :
  s ∈ _build_combinations alphabet 2 ↔
  ∃ a b, a ∈ list_ascii_of_string alphabet ∧ b ∈ list_ascii_of_string alphabet ∧
         s = String a (String b EmptyString).
Proof.
  unfold _build_combinations. rewrite elem_of_list_to_set, elem_of_app.
  rewrite !list_elem_of_fmap. split.
  - intros [(t & -> & (x & r & y & Hp & Hy & ->)%elem_of_permutations_2)|(c & -> & Hc)].
    + apply picks_Permutation in Hp. exists x, y. rewrite Hp.
      split; [left|split; [by right|done]].
    + by exists c, c.
  - intros (a & b & Ha & Hb & ->). destruct (decide (a = b)) as [->|Hne].
    + right. by exists b.
    + left. exists [a; b]. split; [done|]. apply elem_of_permutations_2.
      destruct (picks_elem _ _ Ha) as [r Hr]. exists a, r, b. split; [done|].
      split; [|done]. apply picks_Permutation in Hr. rewrite Hr in Hb.
      apply elem_of_cons in Hb as [->|?]; done.
Qed.

(** The arrangements and the doublets of a duplicate-free alphabet are all
    different. *)
Lemma arrangements_doublets_NoDup (symbols : list ascii) :
  NoDup symbols →
  NoDup ((string_of_list_ascii <$> permutations 2 symbols) ++
         ((λ c, string_of_list_ascii [c; c]) <$> symbols)).
Proof.
  intros Hnd. apply NoDup_app. split; [|split].
  - apply (NoDup_fmap_2 _). by apply permutations_NoDup.
  - intros s (t & -> & (x & r & y & Hp & Hy & ->)%elem_of_permutations_2)%list_elem_of_fmap
      (c & [= -> ->]%(inj _) & _)%list_elem_of_fmap.
    apply picks_Permutation in Hp. rewrite Hp in Hnd.
    by apply NoDup_cons in Hnd as [? _].
  - apply NoDup_fmap_2_strong; [|done]. by intros c1 c2 _ _ [= ->]%(inj _).
Qed.

(** C8: for an alphabet of [n] distinct symbols the catalog of subwords of
    length two is made of the [n * (n - 1)] arrangements of two distinct
    symbols and the [n] doubled symbols, all different, hence has [n * n]
    elements; the witness takes the default alphabet ["abcd"], 16 keys. *)
Theorem build_combinations_2_size alphabet :
  let symbols := list_ascii_of_string alphabet in
  let n := length symbols in
  let arrangements := string_of_list_ascii <$> permutations 2 symbols in
  let doublets := (λ c, string_of_list_ascii [c; c]) <$> symbols in
  NoDup symbols →
  _build_combinations alphabet 2 = list_to_set (arrangements ++ doublets) ∧
  length arrangements = n * (n - 1) ∧
  length doublets = n ∧
  NoDup (arrangements ++ doublets) ∧
  size (_build_combinations alphabet 2) = n * n.
Proof.
  intros symbols n arrangements doublets Hnd.
  pose proof (arrangements_doublets_NoDup symbols Hnd) as Hall.
  assert (length arrangements = n * (n - 1)) as Harr.
  { unfold arrangements. by rewrite length_fmap, permutations_2_length. }
  assert (length doublets = n) as Hdbl.
  { unfold doublets. by rewrite length_fmap. }
  split; [done|]. do 3 (split; [done|]).
  unfold _build_combinations. fold symbols. fold arrangements. fold doublets.
  rewrite size_list_to_set by done. rewrite length_app, Harr, Hdbl.
  destruct n; lia.
Qed.

Lemma build_combinations_2_size_witness :
  let symbols := list_ascii_of_string "abcd" in
  _build_combinations "abcd" 2 =
    list_to_set ((string_of_list_ascii <$> permutations 2 symbols) ++
                 ((λ c, string_of_list_ascii [c; c]) <$> symbols)) ∧
  length (string_of_list_ascii <$> permutations 2 symbols) = 4 * (4 - 1) ∧
  length ((λ c, string_of_list_ascii [c; c]) <$> symbols) = 4 ∧
  NoDup ((string_of_list_ascii <$> permutations 2 symbols) ++
         ((λ c, string_of_list_ascii [c; c]) <$> symbols)) ∧
  size (_build_combinations "abcd" 2) = 4 * 4.
Proof. apply (build_combinations_2_size "abcd"). by apply (bool_decide_unpack _). Defined.

(** ** Facts on the frequency counter *)

Lemma Q_of_nat_add a b : (Q_of_nat a + Q_of_nat b)%Q = Q_of_nat (a + b).
Proof. unfold Q_of_nat. by rewrite Nat2Z.inj_add, inject_Z_plus. Qed.

Lemma Q_of_nat_eq a b : a = b → (Q_of_nat a == Q_of_nat b)%Q.
Proof. by intros ->. Qed.

Lemma Qsum_Q_of_nat (l : list nat) : (Qsum (Q_of_nat <$> l) == Q_of_nat (sum_list l))%Q.
Proof.
  induction l as [|x l IH]; simpl; [reflexivity|].
  rewrite IH. by rewrite Q_of_nat_add.
Qed.

Lemma foldl_count {A} (b : A → bool) (l : list A) c :
  foldl (λ count i, if b i then count + 1 else count) c l =
  c + length (filter (λ i, b i = true) l).
Proof.
  revert c. induction l as [|i l IH]; intros c; simpl; [lia|].
  rewrite IH, filter_cons. destruct (b i) eqn:Hb.
  - rewrite decide_True by done. simpl. lia.
  - rewrite decide_False by done. lia.
Qed.

(** The count is the number of positions at which the needle occurs. *)
Lemma count_substr_positions stack needle :
  _count_substr stack needle =
  length (filter (λ i, substring i (String.length needle) stack = needle)
            (seq 0 (String.length stack + 1 - String.length needle))).
Proof.
  unfold _count_substr. rewrite foldl_count. simpl. f_equal.
  apply list_filter_iff. intros i. apply String.eqb_eq.
Qed.

Example count_substr_overlap : _count_substr "aaaa" "aa" = 3.
Proof. reflexivity. Qed.

Lemma count_words_lookup (words : list string) (m : gmap string Q) key :
  foldl (λ freqs word,
           map_imap (λ key v, Some (v + Q_of_nat (_count_substr word key))%Q) freqs)
        m words !! key =
  (λ v, foldl (λ v word, (v + Q_of_nat (_count_substr word key))%Q) v words) <$> m !! key.
Proof.
  revert m. induction words as [|word words IH]; intros m; simpl.
  - by destruct (m !! key).
  - rewrite IH, map_lookup_imap. by destruct (m !! key).
Qed.

Lemma count_words_total words key t :
  foldl (λ v word, (v + Q_of_nat (_count_substr word key))%Q) (Q_of_nat t) words =
  Q_of_nat (t + total_count words key).
Proof.
  revert t. induction words as [|word words IH]; intros t; simpl.
  - unfold total_count. simpl. by rewrite Nat.add_0_r.
  - rewrite Q_of_nat_add, IH. f_equal. unfold total_count. simpl. lia.
Qed.

Lemma count_frequencies_lookup words alphabet subword_len key :
  _count_frequencies words alphabet subword_len !! key =
  if decide (key ∈ _build_combinations alphabet subword_len)
  then Some (Q_of_nat (total_count words key)) else None.
Proof.
  unfold _count_frequencies. rewrite count_words_lookup, lookup_gset_to_gmap.
  case_decide as Hin.
  - rewrite option_guard_True by done. simpl. f_equal.
    apply (count_words_total words key 0).
  - by rewrite option_guard_False.
Qed.

Lemma count_frequencies_dom words alphabet subword_len :
  dom (_count_frequencies words alphabet subword_len) =
  _build_combinations alphabet subword_len.
Proof.
  apply set_eq. intros key. rewrite elem_of_dom, count_frequencies_lookup.
  case_decide; split; try done; try (by eexists); by intros [? ?].
Qed.

Lemma count_frequencies_values words alphabet subword_len :
  values (_count_frequencies words alphabet subword_len) =
  (λ key, Q_of_nat (total_count words key)) <$>
    (map_to_list (_count_frequencies words alphabet subword_len)).*1.
Proof.
  unfold values. rewrite <- list_fmap_compose.
  apply Forall_fmap_ext_1, Forall_forall. intros [key v] Hkv%elem_of_map_to_list.
  rewrite count_frequencies_lookup in Hkv. simpl.
  case_decide; by simplify_eq.
Qed.

Lemma count_frequencies_keys words alphabet subword_len key :
  key ∈ (map_to_list (_count_frequencies words alphabet subword_len)).*1 ↔
  key ∈ _build_combinations alphabet subword_len.
Proof.
  rewrite <- (count_frequencies_dom words), elem_of_dom, list_elem_of_fmap. split.
  - intros ([k v] & -> & Hkv%elem_of_map_to_list). by exists v.
  - intros [v Hv]. exists (key, v). by rewrite elem_of_map_to_list.
Qed.

Lemma sum_list_with_ext {A} (f g : A → nat) (l : list A) :
  (∀ x, x ∈ l → f x = g x) → sum_list_with f l = sum_list_with g l.
Proof.
  induction l as [|x l IH]; intros Hfg; simpl; [done|].
  rewrite Hfg by left. rewrite IH; [done|]. intros y Hy. apply Hfg. by right.
Qed.

Lemma sum_list_with_swap {A B} (f : A → B → nat) (l : list A) (k : list B) :
  sum_list_with (λ a, sum_list_with (f a) k) l =
  sum_list_with (λ b, sum_list_with (λ a, f a b) l) k.
Proof.
  induction l as [|a l IH]; simpl.
  - induction k; simpl; lia.
  - rewrite IH. clear IH. induction k as [|b k IH]; simpl; lia.
Qed.

Lemma sum_list_with_filter {A B} `{EqDecision B} (g : A → B) (l : list A) (keys : list B) :
  NoDup keys →
  sum_list_with (λ key, length (filter (λ i, g i = key) l)) keys =
  length (filter (λ i, g i ∈ keys) l).
Proof.
  intros Hnd. induction l as [|i l IH]; simpl.
  - induction keys; simpl; [done|]. apply NoDup_cons in Hnd as [_ ?]. auto.
  - rewrite (filter_cons (λ i, g i ∈ keys)).
    assert (sum_list_with (λ key, length (filter (λ i, g i = key) (i :: l))) keys =
            (if decide (g i ∈ keys) then 1 else 0) +
            sum_list_with (λ key, length (filter (λ i, g i = key) l)) keys) as ->.
    { clear IH. induction keys as [|key keys IH]; simpl.
      - by destruct (decide (g i ∈ [])) as [?%not_elem_of_nil|].
      - apply NoDup_cons in Hnd as [Hkey Hnd]. rewrite IH by done.
        rewrite filter_cons. destruct (decide (g i = key)) as [<-|Hne].
        + rewrite (decide_False (P:=g i ∈ keys)) by done.
          rewrite (decide_True (P:=g i ∈ g i :: keys)) by left. simpl. lia.
        + destruct (decide (g i ∈ keys)) as [Hin|Hin].
          * rewrite (decide_True (P:=g i ∈ key :: keys)) by (by right). lia.
          * rewrite (decide_False (P:=g i ∈ key :: keys)); [lia|].
            by intros [?|?]%elem_of_cons. }
    rewrite IH. by destruct (decide (g i ∈ keys)).
Qed.

Lemma filter_all {A} (P : A → Prop) `{∀ x, Decision (P x)} (l : list A) :
  Forall P l → filter P l = l.
Proof.
  induction 1 as [|x l Hx _ IH]; [done|].
  by rewrite filter_cons, decide_True, IH.
Qed.

Lemma substring_2 i (w : string) :
  i + 2 ≤ String.length w →
  ∃ a b, substring i 2 w = String a (String b EmptyString) ∧
         a ∈ list_ascii_of_string w ∧ b ∈ list_ascii_of_string w.
Proof.
  revert i. induction w as [|c w IH]; intros i Hi; simpl in Hi; [lia|].
  destruct i as [|i].
  - destruct w as [|c' w]; simpl in Hi; [lia|]. exists c, c'. simpl.
    split; [by destruct w|]. split; [left|right; left].
  - destruct (IH i) as (a & b & Hab & Ha & Hb); [lia|].
    exists a, b. simpl. split; [done|]. split; by right.
Qed.

Lemma length_2_of_combinations alphabet key :
  key ∈ _build_combinations alphabet 2 → String.length key = 2.
Proof. by intros (a & b & _ & _ & ->)%elem_of_build_combinations_2. Qed.

(** Every sliding position of a word whose two letters form a key of the
    catalog is counted under exactly that key. *)
Lemma sum_count_substr alphabet (keys : list string) (word : string) :
  NoDup keys →
  (∀ key, key ∈ keys ↔ key ∈ _build_combinations alphabet 2) →
  sum_list_with (λ key, _count_substr word key) keys =
  length (filter (λ i, substring i 2 word ∈ _build_combinations alphabet 2)
            (seq 0 (String.length word - 1))).
Proof.
  intros Hnd Hkeys.
  rewrite (sum_list_with_ext _
    (λ key, length (filter (λ i, substring i 2 word = key)
                      (seq 0 (String.length word - 1))))).
  - rewrite sum_list_with_filter by done. f_equal.
    apply list_filter_iff. intros i. apply Hkeys.
  - intros key Hkey%Hkeys%length_2_of_combinations.
    rewrite count_substr_positions, Hkey. do 3 f_equal. lia.
Qed.

Lemma positions_over_alphabet alphabet (word : string) :
  Forall (λ c, c ∈ list_ascii_of_string alphabet) (list_ascii_of_string word) →
  length (filter (λ i, substring i 2 word ∈ _build_combinations alphabet 2)
            (seq 0 (String.length word - 1))) = String.length word - 1.
Proof.
  intros Hword. rewrite filter_all; [by rewrite length_seq|].
  apply Forall_forall. intros i [_ Hi]%elem_of_seq.
  destruct (substring_2 i word) as (a & b & -> & Ha & Hb); [lia|].
  apply elem_of_build_combinations_2. exists a, b.
  rewrite Forall_forall in Hword. auto.
Qed.

Lemma count_frequencies_sum words alphabet :
  (Qsum (values (_count_frequencies words alphabet 2)) ==
   Q_of_nat (sum_list_with
               (λ word, length (filter (λ i, substring i 2 word ∈
                                             _build_combinations alphabet 2)
                                  (seq 0 (String.length word - 1))))%nat words))%Q.
Proof.
  rewrite count_frequencies_values.
  rewrite (list_fmap_compose (total_count words) Q_of_nat), Qsum_Q_of_nat.
  assert (∀ (f : string → nat) l, sum_list (f <$> l) = sum_list_with f l) as ->.
  { intros f l. induction l; simpl; auto. }
  unfold total_count. rewrite sum_list_with_swap.
  apply Q_of_nat_eq, sum_list_with_ext.
  intros word _. apply (sum_count_substr alphabet).
  - apply NoDup_fst_map_to_list.
  - intros key. apply count_frequencies_keys.
Qed.

(** C10: for subwords of length two the catalog is the set of all
    two-letter strings over the alphabet.  The values of the frequency table
    of any list of strings sum to the number of sliding positions of length
    two that hold two letters of the alphabet; so for every list of words
    over the alphabet they sum to the number of all sliding positions, the
    sum over the words of [length word - 1] (no position in a word shorter
    than two). *)
Theorem count_frequencies_total words alphabet :
  (∀ s, s ∈ _build_combinations alphabet 2 ↔
        ∃ a b, a ∈ list_ascii_of_string alphabet ∧ b ∈ list_ascii_of_string alphabet ∧
               s = String a (String b EmptyString)) ∧
  (Qsum (values (_count_frequencies words alphabet 2)) ==
   Q_of_nat (sum_list_with
               (λ word, length (filter (λ i, substring i 2 word ∈
                                             _build_combinations alphabet 2)
                                  (seq 0 (String.length word - 1))))%nat words))%Q ∧
  (Forall (λ word, Forall (λ c, c ∈ list_ascii_of_string alphabet)
                          (list_ascii_of_string word)) words →
   (Qsum (values (_count_frequencies words alphabet 2)) ==
    Q_of_nat (sum_list_with (λ word, String.length word - 1)%nat words))%Q).
Proof.
  split; [apply elem_of_build_combinations_2|]. split; [apply count_frequencies_sum|].
  intros Hwords. rewrite count_frequencies_sum.
  apply Q_of_nat_eq, sum_list_with_ext.
  intros word Hword. apply positions_over_alphabet.
  rewrite Forall_forall in Hwords. auto.
Qed.

(** A string with a letter outside the alphabet has positions that no key
    counts. *)
Example count_frequencies_foreign_letter :
  Qsum (values (_count_frequencies ["xy"; "abx"] "abcd" 2)) = 1%Q.
Proof. reflexivity. Qed.

(** ** Facts on the bitmap builder *)

Lemma sorted_keys_Permutation freqs : sorted_keys freqs ≡ₚ (map_to_list freqs).*1.
Proof. apply merge_sort_Permutation. Qed.

Lemma sorted_keys_Sorted freqs : StronglySorted String.le (sorted_keys freqs).
Proof. apply (StronglySorted_merge_sort _). Qed.

Lemma sorted_keys_length freqs : length (sorted_keys freqs) = size freqs.
Proof. by rewrite sorted_keys_Permutation, length_fmap, length_map_to_list. Qed.


Lemma elem_of_sorted_keys freqs key : key ∈ sorted_keys freqs ↔ is_Some (freqs !! key).
Proof.
  rewrite sorted_keys_Permutation, list_elem_of_fmap. split.
  - intros ([k v] & -> & Hkv%elem_of_map_to_list). by exists v.
  - intros [v Hv]. exists (key, v). by rewrite elem_of_map_to_list.
Qed.

(** The values of the table in the order of its sorted keys. *)
Lemma sorted_keys_values freqs :
  ∃ vs, Forall2 (λ key v, freqs !! key = Some v) (sorted_keys freqs) vs.
Proof.
  assert (Forall (λ key, is_Some (freqs !! key)) (sorted_keys freqs)) as Hall.
  { apply Forall_forall. intros key. apply elem_of_sorted_keys. }
  induction Hall as [|key keys [v Hv] _ [vs IH]]; [by exists []|].
  exists (v :: vs). by constructor.
Qed.

Lemma sqrt_exact s : Nat.sqrt s * Nat.sqrt s = s ↔ ∃ n, s = n * n.
Proof.
  split; [by exists (Nat.sqrt s)|]. intros [n ->]. by rewrite Nat.sqrt_square.
Qed.

Section FillBitmap.
Variable freqs : gmap string Q.
Variable norm_factor : Q.
Variable n : nat.

Let cell (v : Q) : Q := if negb (Qeq_bool norm_factor 0) then (v / norm_factor)%Q else v.

(** The loop writes the keys one after the other into the row-major
    buffer, starting at the cell its counters point at. *)
Lemma fill_bitmap_Ok keys vs i j bitmap :
  rows bitmap = n → cols bitmap = n → length (cells bitmap) = n * n →
  Forall2 (λ key v, freqs !! key = Some v) keys vs →
  i * n + j mod n + length keys ≤ n * n →
  fill_bitmap freqs norm_factor n keys i j bitmap =
  Ok (Matrix n n (take (i * n + j mod n) (cells bitmap) ++ (cell <$> vs) ++
                  drop (i * n + j mod n + length keys) (cells bitmap))).
Proof.
  intros Hrows Hcols Hlen Hvs. revert i j bitmap Hrows Hcols Hlen.
  induction Hvs as [|key v keys vs Hv _ IH]; intros i j bitmap Hrows Hcols Hlen Hk.
  - simpl. rewrite Nat.add_0_r, take_drop. destruct bitmap; simpl in *. by subst.
  - simpl in Hk. assert (0 < n) as Hn by (destruct n; lia).
    assert (j mod n < n) as Hj by (apply Nat.mod_upper_bound; lia).
    assert (i < n) as Hi by nia.
    simpl. rewrite Hv. simpl. unfold setitem.
    rewrite Hrows, Hcols.
    destruct (Nat.ltb_spec i n); [|lia]. destruct (Nat.ltb_spec (j mod n) n); [|lia].
    simpl. set (k := i * n + j mod n) in *.
    set (i' := if j mod n + 1 =? n then i + 1 else i).
    assert (i' * n + (j mod n + 1) mod n = S k) as Hk'.
    { unfold i', k. destruct (Nat.eqb_spec (j mod n + 1) n) as [Heq|Hne].
      - rewrite Heq, Nat.Div0.mod_same. lia.
      - rewrite (Nat.mod_small (j mod n + 1)) by lia. lia. }
    rewrite IH; simpl; rewrite ?length_insert; try done; [|lia].
    rewrite Hk'. f_equal. f_equal.
    rewrite (take_S_r _ _ (cell v)) by (apply list_lookup_insert_eq; lia).
    rewrite take_insert_ge by done. rewrite <- app_assoc. simpl.
    do 3 f_equal. rewrite drop_insert_lt by lia. f_equal. lia.
Qed.
End FillBitmap.

Lemma build_bitmap_Ok freqs norm_factor n vs :
  size freqs = n * n →
  Forall2 (λ key v, freqs !! key = Some v) (sorted_keys freqs) vs →
  _build_bitmap freqs norm_factor =
  Ok (Matrix n n ((λ v, if negb (Qeq_bool norm_factor 0)
                        then (v / norm_factor)%Q else v) <$> vs)).
Proof.
  intros Hsize Hvs. unfold _build_bitmap.
  assert (Nat.sqrt (size freqs) = n) as -> by (by rewrite Hsize, Nat.sqrt_square).
  rewrite Hsize, Nat.eqb_refl. simpl negb. cbv iota.
  rewrite (fill_bitmap_Ok _ _ _ _ vs); simpl; rewrite ?length_replicate; try done.
  - rewrite Nat.Div0.mod_0_l. simpl. rewrite sorted_keys_length, Hsize.
    rewrite drop_ge by (rewrite length_replicate; lia). by rewrite app_nil_r.
  - rewrite Nat.Div0.mod_0_l, sorted_keys_length. lia.
Qed.

Lemma build_bitmap_Raise freqs norm_factor :
  (¬ ∃ n, size freqs = n * n) → _build_bitmap freqs norm_factor = Raise ValueError.
Proof.
  intros Hns. unfold _build_bitmap.
  destruct (Nat.eqb_spec (Nat.sqrt (size freqs) * Nat.sqrt (size freqs)) (size freqs))
    as [Heq|_]; [|done].
  destruct Hns. by apply sqrt_exact.
Qed.

Lemma Qlt_bool_true x y : Qlt_bool x y = true ↔ (x < y)%Q.
Proof.
  unfold Qlt_bool. rewrite negb_true_iff, <- not_true_iff_false, Qle_bool_iff.
  split; [apply Qnot_le_lt | apply Qlt_not_le].
Qed.

Lemma Qlt_bool_false x y : Qlt_bool x y = false ↔ (y <= x)%Q.
Proof. unfold Qlt_bool. by rewrite negb_false_iff, Qle_bool_iff. Qed.

Lemma foldl_max_spec (l : list Q) x :
  let m := foldl (λ m y, if Qlt_bool m y then y else m) x l in
  m ∈ x :: l ∧ (x <= m)%Q ∧ Forall (λ v, (v <= m)%Q) l.
Proof.
  revert x. induction l as [|y l IH]; intros x; simpl.
  - split; [left|]. split; [apply Qle_refl|constructor].
  - destruct (Qlt_bool x y) eqn:Hxy.
    + apply Qlt_bool_true in Hxy. destruct (IH y) as (Hin & Hle & Hall).
      split; [by right|]. split; [|by constructor].
      apply (Qle_trans _ y); [by apply Qlt_le_weak|done].
    + apply Qlt_bool_false in Hxy. destruct (IH x) as (Hin & Hle & Hall).
      split; [|split; [done|]].
      * apply elem_of_cons in Hin as [->|?]; [left|by do 2 right].
      * constructor; [|done]. by apply (Qle_trans _ x).
Qed.

Lemma py_max_spec l m :
  py_max l = Ok m → m ∈ l ∧ Forall (λ v, (v <= m)%Q) l.
Proof.
  destruct l as [|x l]; [done|]. intros [= <-].
  destruct (foldl_max_spec l x) as (Hin & Hle & Hall). split; [done|by constructor].
Qed.

Lemma py_max_Ok l : l ≠ [] → ∃ m, py_max l = Ok m.
Proof. destruct l; [done|]. by eexists. Qed.

Lemma py_max_zeros l :
  l ≠ [] → Forall (λ v, v = 0%Q) l → py_max l = Ok 0%Q.
Proof.
  destruct l as [|x l]; [done|]. intros _ [-> Hl]%Forall_cons. simpl. f_equal.
  induction Hl as [|y l -> _ IH]; simpl; [done|]. exact IH.
Qed.

(** C7: bitmap construction raises [ValueError] exactly when the number
    of keys of the table is not a perfect square.  When it is [n * n] the
    construction succeeds with an [n] by [n] matrix whose cell [(i, j)]
    holds the (normalised) value of the key at place [i * n + j] of the
    keys in lexicographic order. *)
Theorem build_bitmap_layout freqs norm_factor :
  (_build_bitmap freqs norm_factor = Raise ValueError ↔ ¬ ∃ n, size freqs = n * n) ∧
  ∀ n, size freqs = n * n →
    ∃ bitmap,
      _build_bitmap freqs norm_factor = Ok bitmap ∧
      rows bitmap = n ∧ cols bitmap = n ∧
      sorted_keys freqs ≡ₚ (map_to_list freqs).*1 ∧
      StronglySorted String.le (sorted_keys freqs) ∧
      ∀ i j, i < n → j < n →
        ∃ key v, sorted_keys freqs !! (i * n + j) = Some key ∧
                 freqs !! key = Some v ∧
                 getitem bitmap i j =
                   Ok (if negb (Qeq_bool norm_factor 0) then (v / norm_factor)%Q else v).
Proof.
  assert (∀ n, size freqs = n * n →
    ∃ bitmap,
      _build_bitmap freqs norm_factor = Ok bitmap ∧
      rows bitmap = n ∧ cols bitmap = n ∧
      sorted_keys freqs ≡ₚ (map_to_list freqs).*1 ∧
      StronglySorted String.le (sorted_keys freqs) ∧
      ∀ i j, i < n → j < n →
        ∃ key v, sorted_keys freqs !! (i * n + j) = Some key ∧
                 freqs !! key = Some v ∧
                 getitem bitmap i j =
                   Ok (if negb (Qeq_bool norm_factor 0) then (v / norm_factor)%Q else v))
    as Hsquare.
  { intros n Hsize. destruct (sorted_keys_values freqs) as [vs Hvs].
    eexists. split; [by apply (build_bitmap_Ok _ _ n vs)|].
    do 2 (split; [done|]).
    split; [apply sorted_keys_Permutation|]. split; [apply sorted_keys_Sorted|].
    intros i j Hi Hj.
    assert (i * n + j < length (sorted_keys freqs)) as Hlt.
    { rewrite sorted_keys_length, Hsize. nia. }
    apply lookup_lt_is_Some in Hlt as [key Hkey].
    destruct (Forall2_lookup_l _ _ _ _ _ Hvs Hkey) as (v & Hv & Hkv).
    exists key, v. do 2 (split; [done|]).
    unfold getitem. simpl.
    destruct (Nat.ltb_spec i n); [|lia]. destruct (Nat.ltb_spec j n); [|lia].
    simpl. by rewrite list_lookup_fmap, Hv. }
  split; [|done]. split.
  - intros Hraise [n Hn]. destruct (Hsquare n Hn) as (bitmap & Hok & _). congruence.
  - apply build_bitmap_Raise.
Qed.

Example build_bitmap_five_keys :
  _build_bitmap (list_to_map [("a", 1); ("b", 2); ("c", 3); ("d", 4); ("e", 5)]%Q) 0
  = Raise ValueError.
Proof. reflexivity. Qed.

Example build_bitmap_four_keys :
  _build_bitmap (list_to_map [("d", 4); ("b", 2); ("c", 3); ("a", 1)]%Q) 2
  = Ok (Matrix 2 2 [1 / 2; 2 / 2; 3 / 2; 4 / 2]%Q).
Proof. reflexivity. Qed.

(** C3: bitmap construction can fail for one reason only, a key count that
    is not a perfect square, and never because of the factor: on a table of
    [n * n] keys it returns a bitmap whatever the factor.  When the factor
    is zero the cells are the counts of the table unchanged, in the order of
    the sorted keys; when it is not, every cell is its count divided by the
    factor.  The zero factor is what two tables of zeros produce. *)
Theorem build_bitmap_normalisation freqs norm_factor :
  (∀ bitmap, _build_bitmap freqs norm_factor = Ok bitmap →
     ((norm_factor == 0)%Q →
      Forall2 (λ key c, freqs !! key = Some c) (sorted_keys freqs) (cells bitmap)) ∧
     (¬ (norm_factor == 0)%Q →
      Forall2 (λ key c, ∃ v, freqs !! key = Some v ∧ c = (v / norm_factor)%Q)
              (sorted_keys freqs) (cells bitmap))) ∧
  ((∃ n, size freqs = n * n) → ∃ bitmap, _build_bitmap freqs norm_factor = Ok bitmap) ∧
  (∀ e, _build_bitmap freqs norm_factor = Raise e →
        e = ValueError ∧ ¬ ∃ n, size freqs = n * n) ∧
  (∀ lead_freqs lag_freqs : gmap string Q,
     values lead_freqs ++ values lag_freqs ≠ [] →
     Forall (λ v, v = 0%Q) (values lead_freqs ++ values lag_freqs) →
     py_max (values lead_freqs ++ values lag_freqs) = Ok 0%Q).
Proof.
  destruct (sorted_keys_values freqs) as [vs Hvs].
  destruct (decide (Nat.sqrt (size freqs) * Nat.sqrt (size freqs) = size freqs))
    as [[n Hsize]%sqrt_exact|Hns%(not_iff_compat (sqrt_exact _))].
  - rewrite (build_bitmap_Ok freqs norm_factor n vs Hsize Hvs).
    split; [|split; [by eauto|split; [done|intros ??; apply py_max_zeros]]].
    intros bitmap [= <-]. cbn [cells]. split.
    + intros Hz%Qeq_bool_iff. rewrite Hz. cbn [negb]. by rewrite list_fmap_id.
    + intros Hnz. destruct (Qeq_bool norm_factor 0) eqn:Hz.
      { by apply Qeq_bool_iff in Hz. }
      cbn [negb]. apply Forall2_fmap_r. eapply Forall2_impl; [exact Hvs|]. eauto.
  - rewrite (build_bitmap_Raise freqs norm_factor Hns).
    split; [done|]. split; [done|]. split; [|intros ??; apply py_max_zeros].
    by intros e [= <-].
Qed.

(** ** Facts on the scoring step *)

Lemma elem_of_values (freqs : gmap string Q) v :
  v ∈ values freqs ↔ ∃ key, freqs !! key = Some v.
Proof.
  unfold values. rewrite list_elem_of_fmap. split.
  - intros ([key v'] & -> & Hkv%elem_of_map_to_list). by exists key.
  - intros [key Hv]. exists (key, v). by rewrite elem_of_map_to_list.
Qed.

Lemma values_length (freqs : gmap string Q) : length (values freqs) = size freqs.
Proof. unfold values. by rewrite length_fmap, length_map_to_list. Qed.

Lemma count_frequencies_size_abcd words :
  size (_count_frequencies words "abcd" 2) = 4 * 4.
Proof.
  rewrite <- size_dom, count_frequencies_dom.
  unfold _build_combinations. rewrite size_list_to_set; [done|].
  apply arrangements_doublets_NoDup. by apply (bool_decide_unpack _).
Qed.

Lemma islice_length {A} (l : list A) i n :
  (i + 1) * n ≤ length l → length (islice l (i * n) ((i + 1) * n)) = n.
Proof.
  intros Hl. unfold islice. rewrite length_take, length_drop.
  replace ((i + 1) * n - i * n) with n by lia. lia.
Qed.

Section ScoringFacts.
Variable np_sqrt : Q → Q.
Variable norm_ppf : Q → Q.

Lemma get_words_Ok window word_size window_factor :
  0 < word_size → 0 < window_factor →
  ∃ words,
    _get_words np_sqrt norm_ppf window (window_factor * word_size) word_size = Ok words ∧
    length words = length (items window) / (window_factor * word_size) ∧
    Forall (λ word, String.length word = word_size ∧
                    Forall (λ c, c ∈ list_ascii_of_string "abcd")
                           (list_ascii_of_string word)) words.
Proof.
  intros Hws Hwf. unfold _get_words.
  destruct (Nat.eqb_spec (window_factor * word_size) 0) as [?|Hfs]; [nia|].
  set (fs := window_factor * word_size) in *.
  destruct (mapM_Ok_intro
    (λ i, _sax np_sqrt norm_ppf (islice (items window) (i * fs) ((i + 1) * fs)) 4 word_size)
    (λ _ word, String.length word = word_size ∧
               Forall (λ c, c ∈ list_ascii_of_string "abcd") (list_ascii_of_string word))
    (seq 0 (length (items window) / fs))) as (words & Hwords & Hall).
  { apply Forall_forall. intros i [_ Hi]%elem_of_seq.
    destruct (sax_Ok np_sqrt norm_ppf
                (islice (items window) (i * fs) ((i + 1) * fs)) 4 word_size window_factor)
      as (letters & Hword & Hlen & Hsym); [lia|lia|lia| |].
    { fold fs. apply islice_length.
      pose proof (Nat.Div0.mul_div_le (length (items window)) fs). nia. }
    exists (string_of_list_ascii letters). split; [done|].
    by rewrite string_of_list_ascii_length, list_ascii_of_string_of_list_ascii. }
  exists words. split; [done|]. split.
  - apply Forall2_length in Hall. by rewrite length_seq in Hall.
  - by apply Forall2_snd in Hall.
Qed.

(** The scoring step succeeds on every configured detector; its result is
    built from the two tables and their common greatest value. *)
Lemma analyse_Ok word_size window_factor self :
  0 < word_size → 0 < window_factor →
  configured word_size window_factor self →
  ∃ lead_words lag_words norm_factor lead_values lag_values,
    let lead_freqs := _count_frequencies lead_words "abcd" 2 in
    let lag_freqs := _count_frequencies lag_words "abcd" 2 in
    let cell := λ v, if negb (Qeq_bool norm_factor 0) then (v / norm_factor)%Q else v in
    let lead_bitmap := Matrix 4 4 (cell <$> lead_values) in
    let lag_bitmap := Matrix 4 4 (cell <$> lag_values) in
    get_lead_words np_sqrt norm_ppf self = Ok lead_words ∧
    get_lag_words np_sqrt norm_ppf self = Ok lag_words ∧
    count_frequencies self lead_words = lead_freqs ∧
    count_frequencies self lag_words = lag_freqs ∧
    py_max (values lead_freqs ++ values lag_freqs) = Ok norm_factor ∧
    Forall2 (λ key v, lead_freqs !! key = Some v) (sorted_keys lead_freqs) lead_values ∧
    Forall2 (λ key v, lag_freqs !! key = Some v) (sorted_keys lag_freqs) lag_values ∧
    _build_bitmap lead_freqs norm_factor = Ok lead_bitmap ∧
    _build_bitmap lag_freqs norm_factor = Ok lag_bitmap ∧
    analyse np_sqrt norm_ppf self =
      Ok (mkAnalysis
            (Qsum (zip_with (λ a b, ((a - b) ^ 2)%Q) (cells lead_bitmap) (cells lag_bitmap))
             / Q_of_nat (4 * 4))%Q
            lead_bitmap lag_bitmap).
Proof.
  intros Hws Hwf (Hword & Hwin & Hlevel & Halpha).
  destruct (get_words_Ok (_lead_window self) word_size window_factor Hws Hwf)
    as (lead_words & Hlead & _).
  destruct (get_words_Ok (_lag_window self) word_size window_factor Hws Hwf)
    as (lag_words & Hlag & _).
  set (lead_freqs := _count_frequencies lead_words "abcd" 2).
  set (lag_freqs := _count_frequencies lag_words "abcd" 2).
  destruct (py_max_Ok (values lead_freqs ++ values lag_freqs)) as [norm_factor Hmax].
  { intros Hnil%(f_equal length). rewrite length_app, !values_length in Hnil.
    unfold lead_freqs in Hnil. rewrite count_frequencies_size_abcd in Hnil.
    simpl in Hnil. lia. }
  destruct (sorted_keys_values lead_freqs) as [lead_values Hlv].
  destruct (sorted_keys_values lag_freqs) as [lag_values Hgv].
  exists lead_words, lag_words, norm_factor, lead_values, lag_values.
  pose proof (build_bitmap_Ok lead_freqs norm_factor 4 lead_values
                (count_frequencies_size_abcd lead_words) Hlv) as Hb1.
  pose proof (build_bitmap_Ok lag_freqs norm_factor 4 lag_values
                (count_frequencies_size_abcd lag_words) Hgv) as Hb2.
  assert (∀ words, count_frequencies self words = _count_frequencies words "abcd" 2) as Hcf.
  { intros words. unfold count_frequencies. by rewrite Hlevel, Halpha. }
  unfold get_lead_words, get_lag_words. rewrite Hword, Hwin.
  do 9 (split; [done|]).
  unfold analyse, get_lead_words, get_lag_words. rewrite Hword, Hwin, Hlead, Hlag.
  simpl. rewrite !Hcf. fold lead_freqs lag_freqs. rewrite Hmax. simpl.
  rewrite Hb1. simpl. rewrite Hb2. reflexivity.
Qed.
End ScoringFacts.

(** ** Facts on the window controller *)

Lemma deque_append_spec d x :
  0 < maxlen d → length (items d) ≤ maxlen d →
  maxlen (deque_append d x) = maxlen d ∧
  length (items (deque_append d x)) = S (length (items d)) `min` maxlen d.
Proof.
  intros Hmax Hlen. unfold deque_append.
  destruct (Nat.eqb_spec (maxlen d) 0) as [?|_]; [lia|].
  destruct (Nat.eqb_spec (length (items d)) (maxlen d)) as [Heq|Hne];
    cbn [items maxlen]; (split; [done|]).
  - rewrite length_app, length_drop. cbn [length]. lia.
  - rewrite length_app. cbn [length]. lia.
Qed.

Lemma deque_popleft_Ok d :
  0 < length (items d) →
  ∃ x d', deque_popleft d = Ok (x, d') ∧ maxlen d' = maxlen d ∧
          S (length (items d')) = length (items d).
Proof.
  unfold deque_popleft. destruct (items d) as [|x l]; simpl; [lia|].
  intros _. by exists x, (Deque l (maxlen d)).
Qed.

Lemma init_tracks word_size window_factor lead_window_factor lag_window_factor :
  tracks word_size window_factor lead_window_factor lag_window_factor 0
    (init word_size window_factor lead_window_factor lag_window_factor).
Proof. repeat split; simpl; lia. Qed.

Lemma tracks_full ws wf lf gf t self :
  tracks ws wf lf gf t self →
  lf * (wf * ws) + gf * (wf * ws) ≤ t →
  full (_lead_window self) = true ∧ full (_lag_window self) = true.
Proof.
  intros (_ & _ & HmL & HmG & HlL & HlG) Ht. unfold full.
  rewrite HlL, HlG, HmL, HmG. split; apply Nat.eqb_eq; lia.
Qed.

Lemma deque_append_items d x :
  0 < maxlen d →
  items (deque_append d x) =
  drop (if decide (length (items d) = maxlen d) then 1 else 0) (items d) ++ [x].
Proof.
  intros Hmax. unfold deque_append.
  destruct (Nat.eqb_spec (maxlen d) 0) as [?|_]; [lia|].
  destruct (Nat.eqb_spec (length (items d)) (maxlen d)) as [Heq|Hne].
  - by rewrite decide_True.
  - by rewrite decide_False.
Qed.

Section ControllerFacts.
Variable np_sqrt : Q → Q.
Variable norm_ppf : Q → Q.
Variables ws wf lf gf : nat.
Hypothesis Hws : 0 < ws.
Hypothesis Hwf : 0 < wf.
Hypothesis Hlf : 0 < lf.
Hypothesis Hgf : 0 < gf.

Let U := lf * (wf * ws) + gf * (wf * ws).

(** One datapoint: the windows advance by one place over the series, and
    an analysis is appended exactly when the detector has then seen
    [universe_size] datapoints. *)
Lemma detect_step_spec t self acc datapoint :
  tracks ws wf lf gf t self →
  ∃ self',
    tracks ws wf lf gf (S t) self' ∧
    items (_lag_window self') ++ items (_lead_window self') =
      drop (if decide (U ≤ t) then 1 else 0)
           (items (_lag_window self) ++ items (_lead_window self) ++ [datapoint]) ∧
    ((S t < U ∧ detect_step np_sqrt norm_ppf (self, acc) datapoint = Ok (self', acc)) ∨
     (U ≤ S t ∧ ∃ a, analyse np_sqrt norm_ppf self' = Ok a ∧
        detect_step np_sqrt norm_ppf (self, acc) datapoint = Ok (self', acc ++ [a]))).
Proof.
  intros (Hconf & HU & HmL & HmG & HlL & HlG).
  assert (0 < lf * (wf * ws)) as HL by nia.
  assert (0 < gf * (wf * ws)) as HG by nia.
  unfold U. set (L := lf * (wf * ws)) in *. set (G := gf * (wf * ws)) in *.
  unfold detect_step.
  assert (∃ self1,
    (if full (_lead_window self)
     then p ← deque_popleft (_lead_window self);
          Ok (set_windows self p.2 (deque_append (_lag_window self) p.1))
     else Ok self) = Ok self1 ∧
    configured ws wf self1 ∧ universe_size self1 = L + G ∧
    maxlen (_lead_window self1) = L ∧ maxlen (_lag_window self1) = G ∧
    length (items (_lead_window self1)) = t `min` (L - 1) ∧
    length (items (_lag_window self1)) = (S t - L) `min` G ∧
    items (_lag_window self1) ++ items (_lead_window self1) =
      drop (if decide (L + G ≤ t) then 1 else 0)
           (items (_lag_window self) ++ items (_lead_window self)))
    as (self1 & -> & Hc1 & HU1 & HmL1 & HmG1 & HlL1 & HlG1 & Hitems1).
  { unfold full. rewrite HlL, HmL.
    destruct (Nat.eqb_spec (t `min` L) L) as [Heq|Hne].
    - destruct (deque_popleft_Ok (_lead_window self)) as (x & d' & Hpop & Hm' & Hl'); [lia|].
      rewrite Hpop.
      destruct (deque_append_spec (_lag_window self) x) as [Hm2 Hl2]; [lia..|].
      eexists. split; [done|]. cbn [set_windows _lead_window _lag_window universe_size snd fst].
      split; [apply Hconf|]. do 5 (split; [lia|]).
      rewrite deque_append_items by lia.
      unfold deque_popleft in Hpop.
      destruct (items (_lead_window self)) as [|x' rest]; [done|].
      injection Hpop as -> <-. cbn [items]. rewrite <- app_assoc. cbn [app].
      destruct (decide (length (items (_lag_window self)) = maxlen (_lag_window self)))
        as [Hfull|Hnot].
      + rewrite decide_True by lia. rewrite drop_app_le; [done|lia].
      + rewrite decide_False by lia. done.
    - exists self. split; [done|]. split; [apply Hconf|]. do 5 (split; [lia|]).
      by rewrite decide_False by lia. }
  cbn [mbind result_bind].
  destruct (deque_append_spec (_lead_window self1) datapoint) as [Hm3 Hl3]; [lia..|].
  set (self' := set_windows self1 (deque_append (_lead_window self1) datapoint)
                  (_lag_window self1)).
  assert (tracks ws wf lf gf (S t) self') as Htr.
  { unfold tracks, self'.
    cbn [set_windows _lead_window _lag_window universe_size].
    fold L G. split; [apply Hc1|]. repeat split; try done; lia. }
  exists self'. split; [done|]. split.
  { unfold self'. cbn [set_windows _lead_window _lag_window].
    rewrite deque_append_items by lia. rewrite decide_False by lia.
    rewrite drop_0, (app_assoc (items (_lag_window self1))), Hitems1.
    rewrite (app_assoc (items (_lag_window self))).
    rewrite (drop_app_le (_ ++ _) [datapoint]); [done|].
    case_decide; [|lia]. rewrite length_app. lia. }
  destruct (decide (L + G ≤ S t)) as [Hge|Hlt].
  - right. split; [done|].
    destruct (tracks_full _ _ _ _ _ _ Htr Hge) as [Hf1 Hf2].
    unfold self' in Hf1, Hf2. cbn [set_windows _lead_window _lag_window] in Hf1, Hf2.
    fold self'. cbn [_lead_window _lag_window set_windows self'].
    rewrite Hf1, Hf2. cbn [andb].
    destruct (analyse_Ok np_sqrt norm_ppf ws wf self' Hws Hwf)
      as (? & ? & ? & ? & ? & Ha); [apply Htr|].
    destruct Ha as (_ & _ & _ & _ & _ & _ & _ & _ & _ & Ha).
    eexists. split; [exact Ha|]. by rewrite Ha.
  - left. split; [lia|].
    fold self'. cbn [_lead_window _lag_window set_windows self'].
    assert (full (_lag_window self1) = false) as ->; [|by rewrite andb_false_r].
    unfold full. apply Nat.eqb_neq. rewrite HlG1, HmG1. lia.
Qed.

Lemma detect_loop_app st datapoints datapoint :
  detect_loop np_sqrt norm_ppf st (datapoints ++ [datapoint]) =
  st' ← detect_loop np_sqrt norm_ppf st datapoints;
  detect_step np_sqrt norm_ppf st' datapoint.
Proof.
  revert st. induction datapoints as [|d ds IH]; intros st; simpl.
  - by destruct (detect_step _ _ _ _).
  - destruct (detect_step _ _ _ _) as [st'|]; simpl; [apply IH|done].
Qed.

(** The whole loop: it never raises; the windows hold datapoints of the
    series; every analysis it appends is a result of the scoring step on a
    detector with full windows. *)
Lemma detect_loop_spec (D : Q → Prop) (P : Analysis → Prop) :
  (∀ t self a,
     tracks ws wf lf gf t self → U ≤ t →
     Forall D (items (_lag_window self) ++ items (_lead_window self)) →
     analyse np_sqrt norm_ppf self = Ok a → P a) →
  ∀ datapoints t self acc,
    tracks ws wf lf gf t self →
    Forall D (items (_lag_window self) ++ items (_lead_window self)) →
    Forall D datapoints →
    ∃ self' new,
      detect_loop np_sqrt norm_ppf (self, acc) datapoints = Ok (self', acc ++ new) ∧
      tracks ws wf lf gf (t + length datapoints) self' ∧
      length new = (t + length datapoints + 1 - U) - (t + 1 - U) ∧
      Forall P new.
Proof.
  intros HP datapoints.
  induction datapoints as [|d ds IH]; intros t self acc Htr Hwin Hds;
    cbn [detect_loop length].
  - exists self, []. rewrite app_nil_r, Nat.add_0_r.
    split; [done|]. split; [done|]. split; [simpl; lia|constructor].
  - apply Forall_cons in Hds as [Hd Hds].
    destruct (detect_step_spec t self acc d Htr)
      as (self1 & Htr1 & Hitems & Hstep).
    assert (Forall D (items (_lag_window self1) ++ items (_lead_window self1))) as Hwin1.
    { rewrite Hitems. apply Forall_drop. rewrite app_assoc.
      apply Forall_app. split; [done|by constructor]. }
    destruct Hstep as [[Hlt ->]|(Hge & a & Ha & ->)]; cbn [mbind result_bind].
    + destruct (IH (S t) self1 acc Htr1 Hwin1 Hds)
        as (self' & new & -> & Htr' & Hlen & Hall).
      exists self', new. split; [done|].
      replace (t + S (length ds)) with (S t + length ds) by lia.
      split; [done|]. split; [lia|done].
    + destruct (IH (S t) self1 (acc ++ [a]) Htr1 Hwin1 Hds)
        as (self' & new & -> & Htr' & Hlen & Hall).
      exists self', (a :: new). rewrite <- app_assoc. split; [done|].
      replace (t + S (length ds)) with (S t + length ds) by lia.
      split; [done|]. split; [simpl; lia|].
      constructor; [|done]. by apply (HP (S t) self1).
Qed.
End ControllerFacts.

(** ** Facts on the score *)

Lemma Q_of_nat_nonneg n : (0 <= Q_of_nat n)%Q.
Proof. unfold Q_of_nat, Qle, inject_Z. cbn [Qnum Qden]. lia. Qed.

Lemma Qsum_nonneg l : Forall (λ x, (0 <= x)%Q) l → (0 <= Qsum l)%Q.
Proof. induction 1 as [|x l Hx _ IH]; simpl; lra. Qed.

Lemma Qsum_le_length l : Forall (λ x, (x <= 1)%Q) l → (Qsum l <= Q_of_nat (length l))%Q.
Proof.
  induction 1 as [|x l Hx _ IH]; simpl; [apply Qle_refl|].
  change (S (length l)) with (1 + length l). rewrite <- Q_of_nat_add.
  change (Q_of_nat 1) with 1%Q. lra.
Qed.



Lemma squared_differences_unit (l k : list Q) :
  Forall (λ c, 0 <= c <= 1)%Q l → Forall (λ c, 0 <= c <= 1)%Q k →
  Forall (λ c, 0 <= c <= 1)%Q (zip_with (λ a b, (a - b) * (a - b))%Q l k).
Proof.
  intros Hl. revert k. induction Hl as [|x l Hx _ IH]; intros k Hk; [constructor|].
  destruct Hk as [|y k Hy Hk]; [constructor|]. simpl. constructor; [|by apply IH].
  assert (0 <= (1 - (x - y)) * (1 + (x - y)))%Q as Hprod
    by (apply Qmult_le_0_compat; lra).
  assert ((1 - (x - y)) * (1 + (x - y)) == 1 - (x - y) * (x - y))%Q as Hring by ring.
  rewrite Hring in Hprod.
  assert (0 <= (x - y) * (x - y))%Q as Hsq.
  { destruct (Qlt_le_dec (x - y) 0).
    - assert ((x - y) * (x - y) == (- (x - y)) * (- (x - y)))%Q as -> by ring.
      apply Qmult_le_0_compat; lra.
    - apply Qmult_le_0_compat; lra. }
  set (p := ((x - y) * (x - y))%Q) in *. lra.
Qed.

(** [np.power(d, 2)] is the product of [d] with itself. *)
Lemma power_2_product (l k : list Q) :
  zip_with (λ a b, ((a - b) ^ 2)%Q) l k = zip_with (λ a b, ((a - b) * (a - b))%Q) l k.
Proof. reflexivity. Qed.

Lemma cell_unit (norm_factor v : Q) :
  (0 <= v)%Q → (v <= norm_factor)%Q →
  (0 <= (if negb (Qeq_bool norm_factor 0) then v / norm_factor else v) <= 1)%Q.
Proof.
  intros Hv Hle. destruct (Qeq_bool norm_factor 0) eqn:Hz; simpl.
  - apply Qeq_bool_iff in Hz. lra.
  - apply Qeq_bool_neq in Hz. assert (0 < norm_factor)%Q as Hpos.
    { apply Qle_lteq in Hv as [?|Hv0]; [lra|].
      apply Qle_lteq in Hle as [?|Heq]; [lra|]. destruct Hz. lra. }
    split.
    + apply Qle_shift_div_l; [done|lra].
    + apply Qle_shift_div_r; [done|lra].
Qed.

Lemma count_frequencies_nonneg words alphabet subword_len key v :
  _count_frequencies words alphabet subword_len !! key = Some v → (0 <= v)%Q.
Proof.
  rewrite count_frequencies_lookup. case_decide; [|done].
  intros [= <-]. apply Q_of_nat_nonneg.
Qed.

Lemma Forall2_exists_l {A B} (R : A → B → Prop) l k :
  Forall2 R l k → Forall (λ y, ∃ x, R x y) k.
Proof. induction 1; constructor; eauto. Qed.

Section AnalysisFacts.
Variable np_sqrt : Q → Q.
Variable norm_ppf : Q → Q.

(** What the scoring step returns on a configured detector. *)
Lemma analyse_result word_size window_factor self a :
  0 < word_size → 0 < window_factor →
  configured word_size window_factor self →
  analyse np_sqrt norm_ppf self = Ok a →
  (rows (bitmp1 a) = 4 ∧ cols (bitmp1 a) = 4 ∧ length (cells (bitmp1 a)) = 16) ∧
  (rows (bitmp2 a) = 4 ∧ cols (bitmp2 a) = 4 ∧ length (cells (bitmp2 a)) = 16) ∧
  Forall (λ c, 0 <= c <= 1)%Q (cells (bitmp1 a)) ∧
  Forall (λ c, 0 <= c <= 1)%Q (cells (bitmp2 a)) ∧
  score a = (Qsum (zip_with (λ x y, (x - y) ^ 2) (cells (bitmp1 a)) (cells (bitmp2 a)))
             / Q_of_nat (4 * 4))%Q.
Proof.
  intros Hws Hwf Hconf Ha.
  destruct (analyse_Ok np_sqrt norm_ppf word_size window_factor self Hws Hwf Hconf)
    as (lead_words & lag_words & norm_factor & lead_values & lag_values & Hres).
  destruct Hres as (_ & _ & _ & _ & Hmax & Hlv & Hgv & _ & _ & Hok).
  rewrite Hok in Ha. injection Ha as <-. cbn [bitmp1 bitmp2 score rows cols cells].
  apply py_max_spec in Hmax as [_ Hmax]. apply Forall_app in Hmax as [Hmax1 Hmax2].
  rewrite Forall_forall in Hmax1, Hmax2.
  assert (length lead_values = 16) as Hl1.
  { apply Forall2_length in Hlv. by rewrite sorted_keys_length,
      count_frequencies_size_abcd in Hlv. }
  assert (length lag_values = 16) as Hl2.
  { apply Forall2_length in Hgv. by rewrite sorted_keys_length,
      count_frequencies_size_abcd in Hgv. }
  rewrite !length_fmap.
  split; [done|]. split; [done|]. split; [|split; [|done]].
  - apply Forall_fmap. apply Forall2_exists_l in Hlv.
    eapply Forall_impl; [exact Hlv|]. intros v [key Hv]. simpl. apply cell_unit.
    + by apply count_frequencies_nonneg in Hv.
    + apply Hmax1, elem_of_values. eauto.
  - apply Forall_fmap. apply Forall2_exists_l in Hgv.
    eapply Forall_impl; [exact Hgv|]. intros v [key Hv]. simpl. apply cell_unit.
    + by apply count_frequencies_nonneg in Hv.
    + apply Hmax2, elem_of_values. eauto.
Qed.
End AnalysisFacts.

(** ** Every analysis [detect] returns comes from the scoring step *)

Section OutputFacts.
Variable np_sqrt : Q → Q.
Variable norm_ppf : Q → Q.

(** With a sub-window of length zero the word extractor divides by zero
    and the scoring step raises. *)
Lemma analyse_degenerate word_size window_factor self :
  configured word_size window_factor self →
  word_size = 0 ∨ window_factor = 0 →
  analyse np_sqrt norm_ppf self = Raise ZeroDivisionError.
Proof.
  intros (_ & Hwin & _ & _) Hz. unfold analyse, get_lead_words, _get_words.
  rewrite Hwin. by assert (window_factor * word_size = 0) as -> by nia.
Qed.

Lemma analyse_result_any word_size window_factor self a :
  configured word_size window_factor self →
  analyse np_sqrt norm_ppf self = Ok a →
  (rows (bitmp1 a) = 4 ∧ cols (bitmp1 a) = 4 ∧ length (cells (bitmp1 a)) = 16) ∧
  (rows (bitmp2 a) = 4 ∧ cols (bitmp2 a) = 4 ∧ length (cells (bitmp2 a)) = 16) ∧
  Forall (λ c, 0 <= c <= 1)%Q (cells (bitmp1 a)) ∧
  Forall (λ c, 0 <= c <= 1)%Q (cells (bitmp2 a)) ∧
  score a = (Qsum (zip_with (λ x y, (x - y) ^ 2) (cells (bitmp1 a)) (cells (bitmp2 a)))
             / Q_of_nat (4 * 4))%Q.
Proof.
  intros Hconf Ha.
  destruct (decide (word_size = 0 ∨ window_factor = 0)) as [Hz|Hnz].
  - by rewrite (analyse_degenerate _ _ _ Hconf Hz) in Ha.
  - apply (analyse_result np_sqrt norm_ppf word_size window_factor self); [lia..|done|done].
Qed.

(** The scoring step read backwards: what a returned analysis was built
    from. *)
Lemma analyse_inv self a :
  analyse np_sqrt norm_ppf self = Ok a →
  ∃ lead_words lag_words norm_factor d,
    get_lead_words np_sqrt norm_ppf self = Ok lead_words ∧
    get_lag_words np_sqrt norm_ppf self = Ok lag_words ∧
    py_max (values (count_frequencies self lead_words) ++
            values (count_frequencies self lag_words)) = Ok norm_factor ∧
    _build_bitmap (count_frequencies self lead_words) norm_factor = Ok (bitmp1 a) ∧
    _build_bitmap (count_frequencies self lag_words) norm_factor = Ok (bitmp2 a) ∧
    _dist (bitmp1 a) (bitmp2 a) = Ok d ∧
    score a = (d / Q_of_nat (rows (bitmp1 a) * cols (bitmp1 a)))%Q.
Proof.
  unfold analyse.
  intros (lead_words & Hlead & (lag_words & Hlag & (norm_factor & Hmax &
    (lead_bitmap & Hb1 & (lag_bitmap & Hb2 & (d & Hd & [= <-])%bind_Ok)%bind_Ok)%bind_Ok
    )%bind_Ok)%bind_Ok)%bind_Ok.
  by exists lead_words, lag_words, norm_factor, d.
Qed.

Lemma detect_step_inv word_size window_factor self acc datapoint self' acc' :
  configured word_size window_factor self →
  detect_step np_sqrt norm_ppf (self, acc) datapoint = Ok (self', acc') →
  configured word_size window_factor self' ∧
  (acc' = acc ∨ ∃ a, analyse np_sqrt norm_ppf self' = Ok a ∧ acc' = acc ++ [a]).
Proof.
  intros Hconf. unfold detect_step.
  intros (self1 & Hself1 & Hrest)%bind_Ok.
  assert (configured word_size window_factor self1) as Hc1.
  { destruct (full (_lead_window self)); [|by injection Hself1 as <-].
    apply bind_Ok in Hself1 as (p & _ & [= <-]). done. }
  cbv zeta in Hrest.
  destruct (full _ && full _).
  - apply bind_Ok in Hrest as (a & Ha & [= <- <-]). split; [done|]. right. by exists a.
  - injection Hrest as <- <-. split; [done|]. by left.
Qed.

Lemma detect_loop_outputs (P : Analysis → Prop) word_size window_factor :
  (∀ self a, configured word_size window_factor self →
             analyse np_sqrt norm_ppf self = Ok a → P a) →
  ∀ datapoints self acc self' acc',
    configured word_size window_factor self → Forall P acc →
    detect_loop np_sqrt norm_ppf (self, acc) datapoints = Ok (self', acc') →
    Forall P acc'.
Proof.
  intros HP datapoints.
  induction datapoints as [|d ds IH]; intros self acc self' acc' Hconf Hacc;
    cbn [detect_loop].
  - by intros [= <- <-].
  - intros ([self1 acc1] & Hstep & Hloop)%bind_Ok.
    apply (detect_step_inv word_size window_factor) in Hstep as [Hc1 Hacc1]; [|done].
    apply (IH self1 acc1 self' acc'); [done| |done].
    destruct Hacc1 as [->|(a & Ha & ->)]; [done|].
    apply Forall_app. split; [done|]. constructor; [by apply (HP self1)|constructor].
Qed.

Lemma detect_Ok ws wf lf gf datapoints :
  0 < ws → 0 < wf → 0 < lf → 0 < gf →
  ∃ self' out,
    detect np_sqrt norm_ppf (init ws wf lf gf) datapoints = Ok (self', out) ∧
    length out = length datapoints + 1 - (lf + gf) * wf * ws.
Proof.
  intros Hws Hwf Hlf Hgf.
  destruct (detect_loop_spec np_sqrt norm_ppf ws wf lf gf Hws Hwf Hlf Hgf
              (λ _, True) (λ _, True) (λ _ _ _ _ _ _ _, I) datapoints 0 (init ws wf lf gf)
              [] (init_tracks ws wf lf gf))
    as (self' & out & Hdetect & _ & Hlen & _); [by apply Forall_true..|].
  exists self', out. split; [done|]. simpl in Hlen. lia.
Qed.
End OutputFacts.


(** ** The claims on [detect] *)

Section DetectClaims.
Variable np_sqrt : Q → Q.
Variable norm_ppf : Q → Q.


(** C2: whenever the scoring step of [detect] returns an analysis, both
    of its bitmaps were built with one factor, the greatest value found in
    the lead table and the lag table together: it is a value of one of the
    two tables and no value of either exceeds it.  The step does return on
    every detector with a positive word size and window factor. *)
Theorem analyse_norm_factor self :
  (∀ a, analyse np_sqrt norm_ppf self = Ok a →
     ∃ lead_words lag_words norm_factor,
       let lead_freqs := count_frequencies self lead_words in
       let lag_freqs := count_frequencies self lag_words in
       get_lead_words np_sqrt norm_ppf self = Ok lead_words ∧
       get_lag_words np_sqrt norm_ppf self = Ok lag_words ∧
       py_max (values lead_freqs ++ values lag_freqs) = Ok norm_factor ∧
       (∃ key, lead_freqs !! key = Some norm_factor ∨
               lag_freqs !! key = Some norm_factor) ∧
       (∀ key v, lead_freqs !! key = Some v ∨ lag_freqs !! key = Some v →
                 (v <= norm_factor)%Q) ∧
       _build_bitmap lead_freqs norm_factor = Ok (bitmp1 a) ∧
       _build_bitmap lag_freqs norm_factor = Ok (bitmp2 a)) ∧
  (∀ ws wf, 0 < ws → 0 < wf → configured ws wf self →
     ∃ a, analyse np_sqrt norm_ppf self = Ok a).
Proof.
  split.
  - intros a (lead_words & lag_words & norm_factor & d & Hlead & Hlag & Hmax & Hb1 & Hb2 & _
              )%analyse_inv.
    exists lead_words, lag_words, norm_factor. cbn zeta.
    do 3 (split; [done|]).
    apply py_max_spec in Hmax as [Hin Hall].
    split; [|split; [|done]].
    + apply elem_of_app in Hin as [[key ?]%elem_of_values|[key ?]%elem_of_values];
        exists key; auto.
    + rewrite Forall_forall in Hall. intros key v Hv. apply Hall, elem_of_app.
      destruct Hv as [Hv|Hv]; [left|right]; apply elem_of_values; eauto.
  - intros ws wf Hws Hwf Hconf.
    destruct (analyse_Ok np_sqrt norm_ppf ws wf self Hws Hwf Hconf)
      as (? & ? & ? & ? & ? & Hres).
    destruct Hres as (_ & _ & _ & _ & _ & _ & _ & _ & _ & Hok). eauto.
Qed.


(** C9: in every analysis [detect] emits, on a fresh detector or on one
    it has run on before, every cell of both bitmaps lies between 0 and 1,
    and so does the score.  With positive parameters [detect] does
    return. *)
Theorem detect_unit_interval ws wf lf gf datapoints :
  (∀ self self' out,
     configured ws wf self →
     detect np_sqrt norm_ppf self datapoints = Ok (self', out) →
     Forall (λ a,
       Forall (λ c, 0 <= c <= 1)%Q (cells (bitmp1 a)) ∧
       Forall (λ c, 0 <= c <= 1)%Q (cells (bitmp2 a)) ∧
       (0 <= score a <= 1)%Q) out) ∧
  configured ws wf (init ws wf lf gf) ∧
  (0 < ws → 0 < wf → 0 < lf → 0 < gf →
   ∃ self' out,
     detect np_sqrt norm_ppf (init ws wf lf gf) datapoints = Ok (self', out) ∧
     length out = length datapoints + 1 - (lf + gf) * wf * ws).
Proof.
  split; [|split; [apply init_tracks|apply detect_Ok]].
  intros self0 self' out Hconf0 Hdetect.
  eapply (detect_loop_outputs np_sqrt norm_ppf _ ws wf);
    [|exact Hconf0|constructor|exact Hdetect].
  intros self a Hconf Ha. cbn beta.
  destruct (analyse_result_any np_sqrt norm_ppf ws wf self a Hconf Ha)
    as ((Hr1 & Hc1 & Hl1) & (Hr2 & Hc2 & Hl2) & Hu1 & Hu2 & Hscore).
  split; [done|]. split; [done|].
  rewrite power_2_product in Hscore. rewrite Hscore.
  pose proof (squared_differences_unit _ _ Hu1 Hu2) as Hunit.
  set (ds := zip_with _ _ _) in *.
  assert (0 <= Qsum ds)%Q as Hlo.
  { apply Qsum_nonneg. eapply Forall_impl; [exact Hunit|]. by intros c [? _]. }
  assert (Qsum ds <= Q_of_nat (4 * 4))%Q as Hhi.
  { assert (length ds = 4 * 4) as <-.
    { unfold ds. rewrite length_zip_with, Hl1, Hl2. done. }
    apply Qsum_le_length. eapply Forall_impl; [exact Hunit|]. by intros c [_ ?]. }
  split.
  - apply Qmult_le_0_compat; [done|apply Qinv_le_0_compat, Q_of_nat_nonneg].
  - apply Qle_shift_div_r; [reflexivity|].
    set (c := Q_of_nat (4 * 4)) in *. lra.
Qed.
End DetectClaims.

(** ** A constant series *)







Section ConstantSeries.
Variable np_sqrt : Q → Q.
Variable norm_ppf : Q → Q.



End ConstantSeries.



Lemma Q_of_nat_le a b : (Q_of_nat a <= Q_of_nat b)%Q ↔ a ≤ b.
Proof. unfold Q_of_nat. rewrite <- Zle_Qle. lia. Qed.








Section ConstantScore.
Variable np_sqrt : Q → Q.
Variable norm_ppf : Q → Q.
Variables ws wf lf gf : nat.
Hypothesis Hws : 0 < ws.
Hypothesis Hwf : 0 < wf.
Hypothesis Hlf : 0 < lf.
Hypothesis Hgf : 0 < gf.


End ConstantScore.

Lemma Qsquare_pos (x : Q) : ¬ (x == 0)%Q → (0 < x * x)%Q.
Proof.
  intros Hx. destruct (Q_dec x 0) as [[Hlt|Hgt]|Heq]; [| |done].
  - assert (x * x == (- x) * (- x))%Q as -> by ring.
    apply Qmult_lt_0_compat; lra.
  - by apply Qmult_lt_0_compat.
Qed.



Section ConstantClaim.
Variable np_sqrt : Q → Q.
Variable norm_ppf : Q → Q.

End ConstantClaim.



(** The same series on a small detector, by evaluation of the model. *)
Example constant_series_small :
  (λ r, match r with
        | Ok (_, out) => Some (Qred ∘ score <$> out)
        | Raise _ => None
        end) (detect sqrt_approx ppf_quartiles (init 2 1 1 2) (replicate (6 + 50) 5%Q))
  = Some (replicate 51 (1 # 64)%Q).
Proof. by vm_compute. Qed.


(** ** An alphabet larger than [string.ascii_letters] *)

Lemma mapM_Raise {A B} (f : A → result B) (l : list A) e x :
  (∀ y e', f y = Raise e' → e' = e) → x ∈ l → f x = Raise e → mapM f l = Raise e.
Proof.
  intros Hf Hx Hfx. induction Hx as [x l|x y l Hx IH]; cbn [mapM]; fold (mapM f l).
  - by rewrite Hfx.
  - destruct (f y) as [b|e'] eqn:Hy; cbn [mbind result_bind].
    + by rewrite IH.
    + by rewrite (Hf y e' Hy).
Qed.

Lemma where_first_last {A} (f : A → bool) l x :
  Forall (λ y, f y = false) l → f x = true → where_first f (l ++ [x]) = Some (length l).
Proof.
  intros Hl Hx. induction Hl as [|y l Hy _ IH]; simpl.
  - by rewrite Hx.
  - by rewrite Hy, IH.
Qed.

Lemma take_sections_singletons {A} (l : list A) :
  take_sections (replicate (length l) 1) l = (λ y, [y]) <$> l.
Proof. induction l as [|y l IH]; [done|]. simpl. by rewrite drop_0, IH. Qed.

Lemma array_split_singletons {A} (l : list A) :
  l ≠ [] → array_split l (length l) = (λ y, [y]) <$> l.
Proof.
  intros Hl. unfold array_split.
  assert (0 < length l) by (destruct l; [done|simpl; lia]).
  rewrite Nat.Div0.mod_same, Nat.div_same by lia.
  cbn [replicate app]. rewrite Nat.sub_0_r. apply take_sections_singletons.
Qed.

Section LargeAlphabet.
Variable np_sqrt : Q → Q.
Variable norm_ppf : Q → Q.
Hypothesis sqrt_9 : ∀ v, (v == 9)%Q → (np_sqrt v == 3)%Q.
Hypothesis ppf_below_3 : ∀ p, (norm_ppf p < 3)%Q.

Lemma scale_nonzero data m m' var :
  np_mean data = Some m →
  np_mean ((λ x, x - m)%Q <$> data) = Some m' →
  np_mean ((λ x, (x - m') * (x - m'))%Q <$> ((λ x, x - m)%Q <$> data)) = Some var →
  Qeq_bool (np_sqrt var) 0 = false →
  scale np_sqrt data = (λ x, ((x - m) * (1 / np_sqrt var))%Q) <$> data.
Proof.
  intros Hm Hm' Hvar Hnz. unfold scale, np_std. rewrite Hm, Hm'. cbn [mbind option_bind].
  rewrite Hvar. cbn [mbind option_bind]. rewrite Hnz. cbn [negb].
  by rewrite <- list_fmap_compose.
Qed.

(** Nine datapoints at 0 and one at 10 have mean 1 and deviation 3: the
    last one is scaled to 3. *)
Lemma scale_outlier :
  ∃ x0 x, (x == 3)%Q ∧
    scale np_sqrt [0; 0; 0; 0; 0; 0; 0; 0; 0; 10]%Q = replicate 9 x0 ++ [x].
Proof.
  set (data := [0; 0; 0; 0; 0; 0; 0; 0; 0; 10]%Q).
  destruct (np_mean data) as [m|] eqn:Hm; [|done].
  destruct (np_mean ((λ x, x - m)%Q <$> data)) as [m'|] eqn:Hm'; [|done].
  destruct (np_mean ((λ x, (x - m') * (x - m'))%Q <$> ((λ x, x - m)%Q <$> data)))
    as [var|] eqn:Hvar; [|done].
  assert (var == 9)%Q as Hvar9.
  { injection Hm as <-. injection Hm' as <-. injection Hvar as <-. vm_compute. reflexivity. }
  pose proof (sqrt_9 var Hvar9) as Hstd.
  assert (Qeq_bool (np_sqrt var) 0 = false) as Hnz.
  { apply not_true_iff_false. intros Hz%Qeq_bool_iff.
    assert (3 == 0)%Q as H30 by (rewrite <- Hstd; exact Hz).
    vm_compute in H30. discriminate H30. }
  rewrite (scale_nonzero data m m' var Hm Hm' Hvar Hnz).
  exists ((0 - m) * (1 / np_sqrt var))%Q, ((10 - m) * (1 / np_sqrt var))%Q.
  split; [|reflexivity].
  rewrite Hstd. injection Hm as <-. vm_compute. reflexivity.
Qed.

(** Scaled to 3, the last datapoint is above every quantile asked of
    [norm.ppf] for an alphabet of 60 letters: its bucket is the last, the
    sixtieth, and [string.ascii_letters] has no letter for it. *)
Lemma sax_large_alphabet :
  _sax np_sqrt norm_ppf [0; 0; 0; 0; 0; 0; 0; 0; 0; 10]%Q 60 10 = Raise IndexError.
Proof.
  unfold _sax. cbn [Nat.eqb length Nat.modulo Nat.divmod snd Nat.sub negb].
  assert (∃ qs, breakpoints norm_ppf 60 = Ok ((Fin ∘ norm_ppf <$> qs) ++ [Inf]) ∧
                length qs = 59) as (qs & -> & Hlen).
  { eexists. split; [reflexivity|]. by rewrite linspace_length. }
  cbn [mbind result_bind].
  destruct scale_outlier as (x0 & x & Hx & ->).
  set (bps := (Fin ∘ norm_ppf <$> qs) ++ [Inf]).
  change 10 with (length (replicate 9 x0 ++ [x])) at 1.
  rewrite array_split_singletons by (by intros [=]).
  destruct (mapM_Ok_intro (section_location bps) (λ s ind, section_location bps s = Ok ind)
              ((λ y, [y]) <$> replicate 9 x0 ++ [x])) as (locs & -> & Hlocs).
  { apply Forall_fmap, Forall_forall. intros y _. cbn [compose].
    destruct (section_location_Ok (Fin ∘ norm_ppf <$> qs) [y]) as (ind & Hind & _);
      [done|]. by exists ind. }
  cbn [mbind result_bind].
  assert (section_location bps [x] = Ok 59) as Hlast.
  { unfold section_location. cbn [np_mean length]. unfold bps.
    rewrite where_first_last; [by rewrite length_fmap, Hlen|..|done].
    apply Forall_fmap, Forall_forall. intros p _. cbn [compose above].
    apply Qlt_bool_false. apply Qlt_le_weak.
    assert (Qsum [x] / Q_of_nat 1 == 3)%Q as ->.
    { cbn [Qsum foldr]. rewrite Hx. by vm_compute. }
    apply ppf_below_3. }
  assert (59 ∈ locs) as Hin.
  { assert (((λ y, [y]) <$> replicate 9 x0 ++ [x]) !! 9 = Some [x]) as Hsec by done.
    destruct (Forall2_lookup_l _ _ _ _ _ Hlocs Hsec) as (ind & Hind & Hloc).
    rewrite Hlast in Hloc. injection Hloc as <-. by apply list_elem_of_lookup_2 in Hind. }
  rewrite (mapM_Raise letter locs IndexError 59); [done| |done|done].
  intros ind e'. unfold letter. by destruct (String.get ind ascii_letters); intros [=].
Qed.
End LargeAlphabet.

Lemma sqrt_approx_9 v : (v == 9)%Q → (sqrt_approx v == 3)%Q.
Proof.
  destruct v as [n d]. unfold Qeq, sqrt_approx. cbn [Qnum Qden]. intros Hv.
  assert (n = 9 * Z.pos d)%Z as -> by lia.
  replace (9 * Z.pos d * Z.pos d * 10 ^ 20)%Z
    with ((3 * Z.pos d * 10 ^ 10) * (3 * Z.pos d * 10 ^ 10))%Z by lia.
  rewrite Z.sqrt_square by lia. rewrite Pos2Z.inj_mul. lia.
Qed.

Lemma ppf_quartiles_below_3 p : (ppf_quartiles p < 3)%Q.
Proof. unfold ppf_quartiles. by repeat destruct (Qeq_bool _ _). Qed.

Example sax_large_alphabet_run :
  _sax sqrt_approx ppf_quartiles [0; 0; 0; 0; 0; 0; 0; 0; 0; 10]%Q 60 10 = Raise IndexError.
Proof. apply sax_large_alphabet; [apply sqrt_approx_9|apply ppf_quartiles_below_3]. Qed.

(** ** The claims at concrete inputs *)


(** The model run on the series of the witness: one datapoint short of the
    universe gives nothing, the sixth and every later one an analysis. *)
Example detect_small_run :
  (λ r : result (AssumptionFreeAA * list Analysis),
     match r with
     | Ok (_, out) => Some (Qred ∘ score <$> out)
     | Raise _ => None
     end) <$>
    [detect sqrt_approx ppf_quartiles (init 2 1 1 2) [1; 2; 3; 4; 5]%Q;
     detect sqrt_approx ppf_quartiles (init 2 1 1 2) [1; 2; 3; 4; 5; 6]%Q;
     detect sqrt_approx ppf_quartiles (init 2 1 1 2) [1; 2; 3; 4; 5; 6; 7; 8]%Q]
  = [Some []; Some [1 # 64]%Q; Some [1 # 64; 1 # 64; 1 # 64]%Q].
Proof. by vm_compute. Qed.

(** The default detector: words of 10 symbols, sub-windows of 100 words,
    3 of them in the lead window and 30 in the lag window. *)
Example default_universe_size : universe_size (init 10 100 3 30) = 33 * 1000.
Proof. reflexivity. Qed.

(** A detector whose lead window has no room raises on its first
    datapoint. *)
Example detect_zero_lead :
  detect sqrt_approx ppf_quartiles (init 2 1 0 2) [1]%Q = Raise IndexError.
Proof. reflexivity. Qed.

(** * Further properties of the code *)

(** ** Further properties of the discretizer *)

Lemma mapM_Ok_inv {A B} (f : A → result B) l ys :
  mapM f l = Ok ys → Forall2 (λ x y, f x = Ok y) l ys.
Proof.
  revert ys. induction l as [|x l IH]; intros ys; cbn [mapM].
  - intros [= <-]. constructor.
  - fold (mapM f l). intros (y & Hy & (ys' & Hys & [= <-])%bind_Ok)%bind_Ok. constructor; auto.
Qed.

Lemma get_string_of_list_ascii i l : String.get i (string_of_list_ascii l) = l !! i.
Proof.
  revert i. induction l as [|c l IH]; intros i; simpl; [by destruct i|].
  destruct i as [|i]; [done|]. apply IH.
Qed.

(** The first breakpoint above a mean is no later than the first one above
    a greater mean. *)
Lemma where_first_above_mono bps m1 m2 i1 i2 :
  (m1 <= m2)%Q →
  where_first (above m1) bps = Some i1 → where_first (above m2) bps = Some i2 → i1 ≤ i2.
Proof.
  intros Hle. revert i1 i2. induction bps as [|b bps IH]; intros i1 i2; simpl; [done|].
  destruct (above m1 b) eqn:H1.
  - intros [= <-] _. lia.
  - assert (above m2 b = false) as ->.
    { destruct b as [q|]; [|done]. simpl in *.
      apply Qlt_bool_false in H1. apply Qlt_bool_false. by apply (Qle_trans _ m1). }
    destruct (where_first (above m1) bps) as [j1|]; [|done].
    destruct (where_first (above m2) bps) as [j2|]; [|done].
    intros [= <-] [= <-]. specialize (IH j1 j2 eq_refl eq_refl). lia.
Qed.



Section SaxDomain.
Variable np_sqrt : Q → Q.
Variable norm_ppf : Q → Q.



(** X2: the discretizer keeps the order of the section means: in the word
    it returns, the letter of a section is never later in
    [string.ascii_letters] than the letter of a section of greater or equal
    mean. *)
Theorem sax_order_preserving data alphbt_size word_size word p q sp sq mp mq :
  _sax np_sqrt norm_ppf data alphbt_size word_size = Ok word →
  array_split (scale np_sqrt data) word_size !! p = Some sp →
  array_split (scale np_sqrt data) word_size !! q = Some sq →
  np_mean sp = Some mp → np_mean sq = Some mq → (mp <= mq)%Q →
  ∃ ip iq cp cq,
    String.get p word = Some cp ∧ String.get q word = Some cq ∧
    String.get ip ascii_letters = Some cp ∧ String.get iq ascii_letters = Some cq ∧
    ip ≤ iq.
Proof.
  unfold _sax. intros Hword Hp Hq Hmp Hmq Hle.
  destruct (word_size =? 0); [done|].
  destruct (negb _); [done|].
  apply bind_Ok in Hword as (bps & _ & (locs & Hlocs%mapM_Ok_inv &
    (letters & Hletters%mapM_Ok_inv & [= <-])%bind_Ok)%bind_Ok).
  destruct (Forall2_lookup_l _ _ _ _ _ Hlocs Hp) as (ip & Hip & Hlp).
  destruct (Forall2_lookup_l _ _ _ _ _ Hlocs Hq) as (iq & Hiq & Hlq).
  destruct (Forall2_lookup_l _ _ _ _ _ Hletters Hip) as (cp & Hcp & Hgp).
  destruct (Forall2_lookup_l _ _ _ _ _ Hletters Hiq) as (cq & Hcq & Hgq).
  exists ip, iq, cp, cq. rewrite !get_string_of_list_ascii.
  do 2 (split; [done|]).
  unfold letter in Hgp, Hgq.
  destruct (String.get ip ascii_letters) as [c1|]; [|done].
  destruct (String.get iq ascii_letters) as [c2|]; [|done].
  injection Hgp as ->. injection Hgq as ->. do 2 (split; [done|]).
  unfold section_location in Hlp, Hlq. rewrite Hmp in Hlp. rewrite Hmq in Hlq.
  destruct (where_first (above mp) bps) as [i1|] eqn:H1; [|done].
  destruct (where_first (above mq) bps) as [i2|] eqn:H2; [|done].
  injection Hlp as ->. injection Hlq as ->.
  by apply (where_first_above_mono bps mp mq).
Qed.

End SaxDomain.


Lemma sax_order_preserving_witness :
  ∃ ip iq cp cq,
    String.get 0 "ad" = Some cp ∧ String.get 1 "ad" = Some cq ∧
    String.get ip ascii_letters = Some cp ∧ String.get iq ascii_letters = Some cq ∧
    ip ≤ iq.
Proof.
  apply (sax_order_preserving sqrt_approx ppf_quartiles [1; 3]%Q 4 2 "ad" 0 1
           [-2621440000000000 # 2621440000000000]%Q [2621440000000000 # 2621440000000000]%Q
           (-2621440000000000 # 2621440000000000)%Q (2621440000000000 # 2621440000000000)%Q);
    by vm_compute.
Defined.


(** ** Further properties of the distance *)

Lemma Qsquare_zero (x : Q) : (x * x == 0)%Q → (x == 0)%Q.
Proof.
  intros Hsq. destruct (Qeq_dec x 0) as [|Hne]; [done|].
  apply Qsquare_pos in Hne. rewrite Hsq in Hne. by apply Qlt_irrefl in Hne.
Qed.

Lemma Qsquare_nonneg (x : Q) : (0 <= x * x)%Q.
Proof.
  destruct (Qeq_dec x 0) as [->|Hne]; [by vm_compute|].
  by apply Qlt_le_weak, Qsquare_pos.
Qed.

Lemma squared_differences_nonneg (l k : list Q) :
  (0 <= Qsum (zip_with (λ a b, (a - b) * (a - b)) l k))%Q.
Proof.
  apply Qsum_nonneg. revert k. induction l as [|x l IH]; intros [|y k]; simpl;
    try constructor; [apply Qsquare_nonneg|apply IH].
Qed.

(** A sum of squares is zero only when every square is. *)
Lemma squared_differences_zero (l k : list Q) :
  length l = length k →
  (Qsum (zip_with (λ a b, (a - b) * (a - b)) l k) == 0)%Q ↔ Forall2 Qeq l k.
Proof.
  revert k. induction l as [|x l IH]; intros [|y k] Hlen; simpl in Hlen; try lia.
  - split; [constructor|reflexivity].
  - cbn [zip_with Qsum foldr]. fold (Qsum (zip_with (λ a b, (a - b) * (a - b))%Q l k)).
    pose proof (squared_differences_nonneg l k) as Hrest.
    pose proof (Qsquare_nonneg (x - y)) as Hhead.
    set (r := Qsum _) in *. set (h := ((x - y) * (x - y))%Q) in *. split.
    + intros Hz. assert (h == 0)%Q as Hh by lra. assert (r == 0)%Q as Hr by lra.
      constructor.
      * apply Qsquare_zero in Hh. lra.
      * apply IH; [lia|done].
    + intros [Hxy Hlk]%Forall2_cons. apply IH in Hlk; [|lia]. fold r in Hlk.
      assert (h == 0)%Q as Hh by (unfold h; rewrite Hxy; ring).
      lra.
Qed.



(** ** Further properties of the combination catalog *)

Lemma permutations_length {A} r (l s : list A) : s ∈ permutations r l → length s = r.
Proof.
  revert l s. induction r as [|r IH]; intros l s; cbn [permutations].
  - by intros ->%list_elem_of_singleton.
  - intros ([x rest] & (t & -> & Ht)%list_elem_of_fmap & _)%list_elem_of_bind.
    cbn [snd] in Ht. apply IH in Ht. simpl. by rewrite Ht.
Qed.

Lemma bind_all_nil {A B} (f : A → list B) (l : list A) :
  Forall (λ x, f x = []) l → l ≫= f = [].
Proof. induction 1 as [|x l Hx _ IH]; [done|]. by rewrite bind_cons, Hx, IH. Qed.

Lemma permutations_short {A} r (l : list A) : length l < r → permutations r l = [].
Proof.
  revert l. induction r as [|r IH]; intros l Hl; [lia|]. cbn [permutations].
  apply bind_all_nil, Forall_forall.
  intros [x rest] Hp. cbn [fst snd]. rewrite IH; [done|].
  apply picks_Permutation, Permutation_length in Hp. simpl in Hp. lia.
Qed.

Lemma length_list_ascii_of_string (s : string) :
  length (list_ascii_of_string s) = String.length s.
Proof. induction s; simpl; auto. Qed.

(** X5: a letter written more than once in the alphabet changes nothing:
    the catalog of subwords of length two is the catalog of the alphabet
    without its repetitions, and its size is the square of the number of
    distinct letters. *)
Theorem build_combinations_2_repeated alphabet :
  let symbols := remove_dups (list_ascii_of_string alphabet) in
  _build_combinations alphabet 2 = _build_combinations (string_of_list_ascii symbols) 2 ∧
  size (_build_combinations alphabet 2) = length symbols * length symbols.
Proof.
  intros symbols.
  assert (_build_combinations alphabet 2 =
          _build_combinations (string_of_list_ascii symbols) 2) as Heq.
  { apply set_eq. intros s. rewrite !elem_of_build_combinations_2.
    rewrite list_ascii_of_string_of_list_ascii. unfold symbols.
    by setoid_rewrite elem_of_remove_dups. }
  split; [exact Heq|]. rewrite Heq. unfold _build_combinations.
  rewrite list_ascii_of_string_of_list_ascii.
  rewrite size_list_to_set by (apply arrangements_doublets_NoDup, NoDup_remove_dups).
  rewrite length_app, !length_fmap, permutations_2_length.
  destruct (length symbols); lia.
Qed.

(** X6: the doubled letters are keys of the catalog whatever
    [combination_len] is, so a key has [combination_len] letters or two;
    when [combination_len] exceeds the length of the alphabet there is no
    arrangement and the catalog holds the doubled letters only. *)
Theorem build_combinations_lengths alphabet combination_len :
  (∀ s, s ∈ _build_combinations alphabet combination_len →
        String.length s = combination_len ∨ String.length s = 2) ∧
  (∀ c, c ∈ list_ascii_of_string alphabet →
        String c (String c EmptyString) ∈ _build_combinations alphabet combination_len) ∧
  (String.length alphabet < combination_len →
   ∀ s, s ∈ _build_combinations alphabet combination_len ↔
        ∃ c, c ∈ list_ascii_of_string alphabet ∧ s = String c (String c EmptyString)).
Proof.
  unfold _build_combinations. split; [|split].
  - intros s [(t & -> & Ht)%list_elem_of_fmap|(c & -> & _)%list_elem_of_fmap
             ]%elem_of_list_to_set%elem_of_app.
    + left. rewrite string_of_list_ascii_length. by apply permutations_length in Ht.
    + by right.
  - intros c Hc. apply elem_of_list_to_set, elem_of_app. right.
    apply list_elem_of_fmap. by exists c.
  - intros Hlen s. rewrite permutations_short by (by rewrite length_list_ascii_of_string).
    rewrite fmap_nil, app_nil_l, elem_of_list_to_set, list_elem_of_fmap.
    split; intros (c & ? & ?); by exists c.
Qed.

(** ** Further properties of the occurrence counter *)

Lemma substring_prefix (needle stack : string) :
  substring 0 (String.length needle) stack = needle ↔ ∃ post, stack = needle +:+ post.
Proof.
  revert stack. induction needle as [|c needle IH]; intros stack.
  - split; [by exists stack|]. intros _. by destruct stack.
  - destruct stack as [|c' stack]; cbn [String.length substring String.app].
    + split; [done|]. by intros [post [=]].
    + split.
      * intros [= -> Hsub]. apply IH in Hsub as [post ->]. by exists post.
      * intros [post [= -> ->]]. f_equal. apply IH. by exists post.
Qed.

Lemma length_string_app (s1 s2 : string) :
  String.length (s1 +:+ s2) = String.length s1 + String.length s2.
Proof. induction s1; simpl; auto. Qed.

(** The needle is read at position [i] exactly when [i] letters, then the
    needle, then the rest make up the stack. *)
Lemma substring_occurrence i (needle stack : string) :
  i + String.length needle ≤ String.length stack →
  substring i (String.length needle) stack = needle ↔
  ∃ pre post, String.length pre = i ∧ stack = pre +:+ needle +:+ post.
Proof.
  revert stack. induction i as [|i IH]; intros stack Hlen.
  - rewrite substring_prefix. split.
    + intros [post ->]. by exists EmptyString, post.
    + intros (pre & post & Hpre & ->). destruct pre; [|done]. by exists post.
  - destruct stack as [|c stack]; cbn [String.length] in Hlen; [lia|].
    cbn [substring]. rewrite IH by lia. split.
    + intros (pre & post & <- & ->). by exists (String c pre), post.
    + intros (pre & post & Hpre & Heq). destruct pre as [|c' pre]; [done|].
      injection Hpre as <-. injection Heq as -> ->. by exists pre, post.
Qed.

(** X7: the count is positive exactly when the needle occurs in the stack
    as a block of consecutive letters. *)
Theorem count_substr_positive stack needle :
  0 < _count_substr stack needle ↔ ∃ pre post, stack = pre +:+ needle +:+ post.
Proof.
  rewrite count_substr_positions. split.
  - intros Hpos.
    destruct (filter _ _) as [|i rest] eqn:Hf; [simpl in Hpos; lia|].
    assert (i ∈ filter (λ i, substring i (String.length needle) stack = needle)
                  (seq 0 (String.length stack + 1 - String.length needle))) as Hi
      by (rewrite Hf; left).
    apply list_elem_of_filter in Hi as [Hsub [_ Hi]%elem_of_seq].
    apply substring_occurrence in Hsub as (pre & post & _ & ->); [eauto|lia].
  - intros (pre & post & ->).
    assert (String.length pre ∈
            filter (λ i, substring i (String.length needle) (pre +:+ needle +:+ post) = needle)
              (seq 0 (String.length (pre +:+ needle +:+ post) + 1 - String.length needle)))
      as Hin.
    { rewrite !length_string_app. apply list_elem_of_filter. split.
      - apply substring_occurrence; [rewrite !length_string_app; lia|by exists pre, post].
      - apply elem_of_seq. lia. }
    destruct (filter _ _); [by apply elem_of_nil in Hin|simpl; lia].
Qed.

Lemma substring_replicate i k n c :
  i + k ≤ n →
  substring i k (string_of_list_ascii (replicate n c)) = string_of_list_ascii (replicate k c).
Proof.
  revert n k. induction i as [|i IH]; intros n k Hn.
  - revert n Hn. induction k as [|k IHk]; intros n Hn; [by destruct n|].
    destruct n as [|n]; [lia|]. simpl. f_equal. apply IHk. lia.
  - destruct n as [|n]; [lia|]. simpl. apply IH. lia.
Qed.

(** X8: the count never exceeds the number of places at which the needle
    fits, [len(stack) - len(needle) + 1] (none when the needle is the
    longer), and occurrences that overlap are all counted: a run of [n]
    equal letters holds a run of [k] of them at every one of those places. *)
Theorem count_substr_bound stack needle c n k :
  _count_substr stack needle ≤ String.length stack + 1 - String.length needle ∧
  _count_substr (string_of_list_ascii (replicate n c)) (string_of_list_ascii (replicate k c))
    = n + 1 - k.
Proof.
  rewrite !count_substr_positions. split.
  - etrans; [apply length_filter|]. by rewrite length_seq.
  - rewrite !string_of_list_ascii_length, !length_replicate.
    rewrite filter_all; [by rewrite length_seq|].
    apply Forall_forall. intros i [_ Hi]%elem_of_seq. apply substring_replicate. lia.
Qed.

(** ** Further properties of the frequency counter *)

Lemma total_count_app words1 words2 key :
  total_count (words1 ++ words2) key = total_count words1 key + total_count words2 key.
Proof. unfold total_count. apply sum_list_with_app. Qed.

(** X9: the table of two lists of words put together is the sum, key by
    key, of the tables of the two lists. *)
Theorem count_frequencies_app words1 words2 alphabet subword_len key :
  _count_frequencies (words1 ++ words2) alphabet subword_len !! key =
  match _count_frequencies words1 alphabet subword_len !! key,
        _count_frequencies words2 alphabet subword_len !! key with
  | Some v1, Some v2 => Some (v1 + v2)%Q
  | _, _ => None
  end.
Proof.
  rewrite !count_frequencies_lookup. case_decide; [|done].
  by rewrite total_count_app, Q_of_nat_add.
Qed.

(** X10: the order of the words does not matter: two lists holding the same
    words the same number of times have the same table. *)
Theorem count_frequencies_Permutation words words' alphabet subword_len :
  words ≡ₚ words' →
  _count_frequencies words alphabet subword_len =
  _count_frequencies words' alphabet subword_len.
Proof.
  intros Hperm. apply map_eq. intros key. rewrite !count_frequencies_lookup.
  case_decide; [|done]. do 2 f_equal. unfold total_count. by rewrite Hperm.
Qed.

Lemma count_frequencies_Permutation_witness :
  _count_frequencies ["ab"; "cd"; "ab"] "abcd" 2 =
  _count_frequencies ["cd"; "ab"; "ab"] "abcd" 2.
Proof.
  apply (count_frequencies_Permutation ["ab"; "cd"; "ab"] ["cd"; "ab"; "ab"] "abcd" 2).
  apply perm_swap.
Defined.

(** ** Further properties of the bitmap builder *)

Lemma build_bitmap_size freqs norm_factor bitmap :
  _build_bitmap freqs norm_factor = Ok bitmap →
  size freqs = Nat.sqrt (size freqs) * Nat.sqrt (size freqs).
Proof.
  unfold _build_bitmap.
  by destruct (Nat.eqb_spec (Nat.sqrt (size freqs) * Nat.sqrt (size freqs)) (size freqs)).
Qed.

(** The values read along the sorted keys are the values of the table, in
    another order. *)
Lemma sorted_values_Permutation (freqs : gmap string Q) vs :
  Forall2 (λ key v, freqs !! key = Some v) (sorted_keys freqs) vs →
  vs ≡ₚ values freqs.
Proof.
  intros Hvs.
  assert (vs = (λ key, default 0%Q (freqs !! key)) <$> sorted_keys freqs) as ->.
  { induction Hvs as [|key v keys vs Hv _ IH]; [done|].
    cbn [fmap list_fmap]. by rewrite Hv, IH. }
  rewrite sorted_keys_Permutation. unfold values. rewrite <- list_fmap_compose.
  apply reflexive_eq, Forall_fmap_ext_1, Forall_forall.
  intros [key v] Hkv%elem_of_map_to_list. simpl. by rewrite Hkv.
Qed.

(** X11: a bitmap that is returned is square and holds one cell for each
    key: its cells are the values of the table, each taken once and each
    normalised, in some order.  No count is dropped and none is written
    twice. *)
Theorem build_bitmap_cells freqs norm_factor bitmap :
  _build_bitmap freqs norm_factor = Ok bitmap →
  rows bitmap = cols bitmap ∧
  length (cells bitmap) = rows bitmap * cols bitmap ∧
  length (cells bitmap) = size freqs ∧
  cells bitmap ≡ₚ
    (λ v, if negb (Qeq_bool norm_factor 0) then (v / norm_factor)%Q else v) <$> values freqs.
Proof.
  intros Hok. pose proof (build_bitmap_size _ _ _ Hok) as Hsize.
  destruct (sorted_keys_values freqs) as [vs Hvs].
  rewrite (build_bitmap_Ok freqs norm_factor _ vs Hsize Hvs) in Hok.
  injection Hok as <-. cbn [rows cols cells].
  pose proof (sorted_values_Permutation freqs vs Hvs) as Hperm.
  split; [done|]. rewrite length_fmap.
  assert (length vs = size freqs) as Hlen by (by rewrite Hperm, values_length).
  split; [by rewrite Hlen|]. split; [done|]. by rewrite Hperm.
Qed.

Lemma build_bitmap_cells_witness :
  let freqs : gmap string Q := list_to_map [("d", 4); ("b", 2); ("c", 3); ("a", 1)]%Q in
  let bitmap := Matrix 2 2 [1 / 2; 2 / 2; 3 / 2; 4 / 2]%Q in
  rows bitmap = cols bitmap ∧
  length (cells bitmap) = rows bitmap * cols bitmap ∧
  length (cells bitmap) = size freqs ∧
  cells bitmap ≡ₚ
    (λ v, if negb (Qeq_bool 2 0) then (v / 2)%Q else v) <$> values freqs.
Proof.
  apply (build_bitmap_cells (list_to_map [("d", 4); ("b", 2); ("c", 3); ("a", 1)]%Q) 2).
  reflexivity.
Defined.

(** ** Further properties of the word extractor *)

Lemma mapM_app {A B} (f : A → result B) (l k : list A) :
  mapM f (l ++ k) = ys ← mapM f l; zs ← mapM f k; Ok (ys ++ zs).
Proof.
  induction l as [|x l IH]; cbn [app mapM].
  - cbn [mbind result_bind]. fold (mapM f k). by destruct (mapM f k).
  - fold (mapM f (l ++ k)). fold (mapM f l). rewrite IH.
    destruct (f x) as [y|e]; cbn [mbind result_bind]; [|done].
    destruct (mapM f l) as [ys|e]; cbn [mbind result_bind]; [|done].
    by destruct (mapM f k).
Qed.

Lemma mapM_ext {A B} (f g : A → result B) (l : list A) :
  (∀ x, x ∈ l → f x = g x) → mapM f l = mapM g l.
Proof.
  induction l as [|x l IH]; intros Hfg; [done|]. cbn [mapM].
  fold (mapM f l). fold (mapM g l).
  rewrite Hfg by left. rewrite IH; [done|]. intros y Hy. apply Hfg. by right.
Qed.

Lemma mapM_fmap {A B C} (f : B → result C) (g : A → B) (l : list A) :
  mapM f (g <$> l) = mapM (f ∘ g) l.
Proof.
  induction l as [|x l IH]; [done|]. cbn [fmap list_fmap mapM].
  fold (mapM f (g <$> l)). fold (mapM (f ∘ g) l). by rewrite IH.
Qed.

Section WordExtractor.
Variable np_sqrt : Q → Q.
Variable norm_ppf : Q → Q.


(** X12: the words of a window are those of its chunks, in order: when a
    first part of the window holds a whole number of chunks, the words of
    the window are the words of that part followed by the words of the
    rest.  The capacity of the window plays no part. *)
Theorem get_words_app l1 l2 m m1 m2 feature_size word_size k :
  0 < feature_size → length l1 = k * feature_size →
  _get_words np_sqrt norm_ppf (Deque (l1 ++ l2) m) feature_size word_size =
  words1 ← _get_words np_sqrt norm_ppf (Deque l1 m1) feature_size word_size;
  words2 ← _get_words np_sqrt norm_ppf (Deque l2 m2) feature_size word_size;
  Ok (words1 ++ words2).
Proof.
  intros Hfs Hl1. unfold _get_words.
  destruct (Nat.eqb_spec feature_size 0) as [?|_]; [lia|]. cbn [items].
  rewrite length_app, Hl1, Nat.div_add_l, Nat.div_mul by lia.
  assert (∀ q, seq 0 (k + q) = seq 0 k ++ (Nat.add k <$> seq 0 q)) as ->.
  { intros q. by rewrite seq_app, fmap_add_seq, Nat.add_0_r. }
  rewrite mapM_app, mapM_fmap.
  rewrite (mapM_ext _ (λ i, _sax np_sqrt norm_ppf
             (islice l1 (i * feature_size) ((i + 1) * feature_size)) 4 word_size)
             (seq 0 k)).
  - rewrite (mapM_ext _ (λ i, _sax np_sqrt norm_ppf
               (islice l2 (i * feature_size) ((i + 1) * feature_size)) 4 word_size)
               (seq 0 (length l2 / feature_size))); [done|].
    intros i _. cbn [compose]. f_equal. unfold islice.
    replace ((k + i) * feature_size) with (length l1 + i * feature_size) by lia.
    rewrite drop_app_add. f_equal. lia.
  - intros i [_ Hi]%elem_of_seq. f_equal. unfold islice.
    rewrite drop_app_le by nia. rewrite take_app_le; [done|].
    rewrite length_drop. nia.
Qed.

End WordExtractor.

Lemma get_words_app_witness :
  _get_words sqrt_approx ppf_quartiles (Deque ([1; 2; 3; 4] ++ [8; 6; 4; 2; 9])%Q 9) 4 2 =
  words1 ← _get_words sqrt_approx ppf_quartiles (Deque [1; 2; 3; 4]%Q 4) 4 2;
  words2 ← _get_words sqrt_approx ppf_quartiles (Deque [8; 6; 4; 2; 9]%Q 5) 4 2;
  Ok (words1 ++ words2).
Proof.
  apply (get_words_app sqrt_approx ppf_quartiles [1; 2; 3; 4]%Q [8; 6; 4; 2; 9]%Q 9 4 5 4 2 1);
    [lia|reflexivity].
Defined.

(** ** Further properties of the window controller *)

Section Streaming.
Variable np_sqrt : Q → Q.
Variable norm_ppf : Q → Q.

Lemma detect_step_acc self acc datapoint :
  detect_step np_sqrt norm_ppf (self, acc) datapoint =
  st ← detect_step np_sqrt norm_ppf (self, []) datapoint; Ok (st.1, acc ++ st.2).
Proof.
  unfold detect_step.
  destruct (if full (_lead_window self) then _ else _) as [self1|e];
    cbn [mbind result_bind]; [|done].
  destruct (full _ && full _).
  - destruct (analyse _ _ _) as [a|e]; cbn [mbind result_bind]; done.
  - cbn [mbind result_bind fst snd]. by rewrite app_nil_r.
Qed.

Lemma detect_loop_acc datapoints self acc :
  detect_loop np_sqrt norm_ppf (self, acc) datapoints =
  st ← detect_loop np_sqrt norm_ppf (self, []) datapoints; Ok (st.1, acc ++ st.2).
Proof.
  revert self acc. induction datapoints as [|d ds IH]; intros self acc; cbn [detect_loop].
  - cbn [mbind result_bind fst snd]. by rewrite app_nil_r.
  - rewrite detect_step_acc.
    destruct (detect_step np_sqrt norm_ppf (self, []) d) as [[self1 out1]|e];
      cbn [mbind result_bind fst snd]; [|done].
    rewrite (IH self1 (acc ++ out1)), (IH self1 out1).
    destruct (detect_loop np_sqrt norm_ppf (self1, []) ds) as [[self2 out2]|e];
      cbn [mbind result_bind fst snd]; [|done].
    by rewrite app_assoc.
Qed.

Lemma detect_loop_app_list st datapoints1 datapoints2 :
  detect_loop np_sqrt norm_ppf st (datapoints1 ++ datapoints2) =
  st' ← detect_loop np_sqrt norm_ppf st datapoints1;
  detect_loop np_sqrt norm_ppf st' datapoints2.
Proof.
  revert st. induction datapoints1 as [|d ds IH]; intros st; cbn [app detect_loop].
  - done.
  - destruct (detect_step _ _ _ _) as [st'|]; cbn [mbind result_bind]; [apply IH|done].
Qed.

Lemma detect_app_eq self datapoints1 datapoints2 :
  detect np_sqrt norm_ppf self (datapoints1 ++ datapoints2) =
  st1 ← detect np_sqrt norm_ppf self datapoints1;
  st2 ← detect np_sqrt norm_ppf st1.1 datapoints2;
  Ok (st2.1, st1.2 ++ st2.2).
Proof.
  unfold detect. rewrite detect_loop_app_list.
  destruct (detect_loop np_sqrt norm_ppf (self, []) datapoints1) as [[self1 out1]|e];
    cbn [mbind result_bind fst snd]; [|done].
  apply detect_loop_acc.
Qed.

(** X15: a series may be fed in pieces: running [detect] on a first
    piece and then, with the detector it leaves, on a second piece gives
    the analyses of one run on the whole series, and fails when that run
    fails. *)
Theorem detect_app self datapoints1 datapoints2 :
  detect np_sqrt norm_ppf self (datapoints1 ++ datapoints2) =
  '(self1, out1) ← detect np_sqrt norm_ppf self datapoints1;
  '(self2, out2) ← detect np_sqrt norm_ppf self1 datapoints2;
  Ok (self2, out1 ++ out2).
Proof.
  rewrite detect_app_eq.
  destruct (detect np_sqrt norm_ppf self datapoints1) as [[self1 out1]|e];
    cbn [mbind result_bind fst snd]; [|done].
  by destruct (detect np_sqrt norm_ppf self1 datapoints2) as [[self2 out2]|e].
Qed.
End Streaming.

Lemma tracks_detector_after ws wf lf gf datapoints self :
  tracks ws wf lf gf (length datapoints) self →
  items (_lag_window self) ++ items (_lead_window self) =
    drop (length datapoints - (lf * (wf * ws) + gf * (wf * ws))) datapoints →
  self = detector_after ws wf lf gf datapoints.
Proof.
  intros ((Hword & Hwin & Hlevel & Halpha) & HU & HmL & HmG & HlL & HlG) Hitems.
  unfold detector_after. set (L := lf * (wf * ws)) in *. set (G := gf * (wf * ws)) in *.
  set (n := length datapoints) in *.
  assert (items (_lag_window self) = drop (n - (L + G)) (take (n - L) datapoints)) as Hlag.
  { rewrite <- (take_app_length (items (_lag_window self)) (items (_lead_window self))).
    rewrite Hitems, HlG, take_drop_commute. f_equal. f_equal. lia. }
  assert (items (_lead_window self) = drop (n - L) datapoints) as Hlead.
  { rewrite <- (drop_app_length (items (_lag_window self)) (items (_lead_window self))).
    rewrite Hitems, HlG, drop_drop. f_equal. lia. }
  destruct self as [w1 w2 u [il ml] [ig mg] r al]. cbn in *. subst. reflexivity.
Qed.

Lemma windows_split {A} (l : list A) L G :
  drop (length l - (L + G)) (take (length l - L) l) ++ drop (length l - L) l =
  drop (length l - (L + G)) l.
Proof.
  set (n := length l). set (m := n - (L + G)).
  transitivity (take (n - L - m) (drop m l) ++ drop (n - L - m) (drop m l));
    [|apply take_drop].
  f_equal.
  - rewrite take_drop_commute. do 2 f_equal. lia.
  - rewrite drop_drop. f_equal. lia.
Qed.

Lemma detector_after_tracks ws wf lf gf datapoints :
  tracks ws wf lf gf (length datapoints) (detector_after ws wf lf gf datapoints).
Proof.
  unfold tracks, detector_after, configured.
  cbn [set_windows init _word_size _window_size _recursion_level _alphabet universe_size
       _lead_window _lag_window items maxlen].
  rewrite !length_drop, length_take. repeat split; lia.
Qed.

(** The state of the windows depends on the latest [universe_size]
    datapoints only. *)
Lemma detector_after_suffix ws wf lf gf datapoints :
  detector_after ws wf lf gf datapoints =
  detector_after ws wf lf gf
    (drop (length datapoints - (lf * (wf * ws) + gf * (wf * ws))) datapoints).
Proof.
  apply tracks_detector_after.
  - pose proof (detector_after_tracks ws wf lf gf datapoints)
      as (Hconf & HU & HmL & HmG & HlL & HlG).
    unfold tracks in *. cbv zeta in *. rewrite length_drop.
    split; [done|]. do 3 (split; [done|]). split; lia.
  - unfold detector_after. cbn [set_windows _lead_window _lag_window items].
    set (L := lf * (wf * ws)). set (G := gf * (wf * ws)). set (n := length datapoints).
    rewrite length_drop. fold n.
    replace (n - (n - (L + G)) - (L + G)) with 0 by lia. rewrite drop_0.
    apply windows_split.
Qed.

Section WindowContents.
Variable np_sqrt : Q → Q.
Variable norm_ppf : Q → Q.
Variables ws wf lf gf : nat.
Hypothesis Hws : 0 < ws.
Hypothesis Hwf : 0 < wf.
Hypothesis Hlf : 0 < lf.
Hypothesis Hgf : 0 < gf.

Let U := lf * (wf * ws) + gf * (wf * ws).

(** A run from the initial detector: where it leaves the windows, how many
    analyses it returns, and where the last one comes from. *)
Lemma detect_contents datapoints :
  ∃ out,
    detect np_sqrt norm_ppf (init ws wf lf gf) datapoints =
      Ok (detector_after ws wf lf gf datapoints, out) ∧
    length out = length datapoints + 1 - U ∧
    (U ≤ length datapoints →
     ∃ out' a, out = out' ++ [a] ∧
               analyse np_sqrt norm_ppf (detector_after ws wf lf gf datapoints) = Ok a).
Proof.
  assert (0 < U) as HU by (unfold U; nia).
  assert (∃ self' out,
    detect np_sqrt norm_ppf (init ws wf lf gf) datapoints = Ok (self', out) ∧
    tracks ws wf lf gf (length datapoints) self' ∧
    items (_lag_window self') ++ items (_lead_window self') =
      drop (length datapoints - U) datapoints ∧
    length out = length datapoints + 1 - U ∧
    (U ≤ length datapoints →
     ∃ out' a, out = out' ++ [a] ∧ analyse np_sqrt norm_ppf self' = Ok a))
    as (self' & out & Hdetect & Htr & Hitems & Hlen & Hlast).
  { induction datapoints as [|d ds IH] using rev_ind.
    - exists (init ws wf lf gf), []. split; [done|]. split; [apply init_tracks|].
      split; [done|]. split; [simpl; lia|]. simpl. lia.
    - destruct IH as (self1 & out1 & Hdetect & Htr & Hitems & Hlen & _).
      unfold detect in *. rewrite detect_loop_app, Hdetect. cbn [mbind result_bind].
      destruct (detect_step_spec np_sqrt norm_ppf ws wf lf gf Hws Hwf Hlf Hgf
                  (length ds) self1 out1 d Htr) as (self2 & Htr2 & Hitems2 & Hstep).
      fold U in Hitems2. rewrite length_app. cbn [length].
      replace (length ds + 1) with (S (length ds)) by lia.
      assert (items (_lag_window self2) ++ items (_lead_window self2) =
              drop (S (length ds) - U) (ds ++ [d])) as Hitems'.
      { rewrite Hitems2, app_assoc, Hitems.
        rewrite <- (drop_app_le ds [d]) by lia. rewrite drop_drop.
        f_equal. case_decide; lia. }
      destruct Hstep as [[Hlt ->]|(Hge & a & Ha & ->)].
      + exists self2, out1. do 3 (split; [done|]). split; lia.
      + exists self2, (out1 ++ [a]). do 3 (split; [done|]).
        split; [rewrite length_app; simpl; lia|]. intros _. by exists out1, a. }
  apply tracks_detector_after in Hitems; [|done]. subst self'.
  exists out. by split.
Qed.


(** X16: an analysis depends on the latest [universe_size] datapoints
    only: the analysis of index [i] of a run over a series is the one
    analysis of a run of a fresh detector over the [universe_size]
    datapoints that start at place [i]. *)
Theorem detect_sliding datapoints i :
  i + universe_size (init ws wf lf gf) ≤ length datapoints →
  ∃ self' out self'' a,
    detect np_sqrt norm_ppf (init ws wf lf gf) datapoints = Ok (self', out) ∧
    out !! i = Some a ∧
    detect np_sqrt norm_ppf (init ws wf lf gf)
      (take (universe_size (init ws wf lf gf)) (drop i datapoints)) = Ok (self'', [a]).
Proof.
  change (universe_size (init ws wf lf gf)) with U. intros Hi.
  assert (0 < U) as HU by (unfold U; nia).
  set (prefix := take (i + U) datapoints).
  assert (length prefix = i + U) as Hplen by (unfold prefix; rewrite length_take; lia).
  destruct (detect_contents prefix) as (out1 & Hd1 & Hl1 & Hlast1).
  destruct Hlast1 as (out1' & a & -> & Ha); [lia|].
  rewrite length_app in Hl1. cbn [length] in Hl1.
  destruct (detect_contents datapoints) as (out & Hd & Hl & _).
  pose proof (detect_app_eq np_sqrt norm_ppf (init ws wf lf gf) prefix
                (drop (i + U) datapoints)) as Happ.
  unfold prefix in Happ at 1. rewrite take_drop, Hd, Hd1 in Happ.
  cbn [mbind result_bind fst snd] in Happ.
  destruct (detect np_sqrt norm_ppf (detector_after ws wf lf gf prefix)
              (drop (i + U) datapoints)) as [[self2 out2]|e];
    cbn [mbind result_bind fst snd] in Happ; [|done].
  injection Happ as _ ->.
  set (window := take U (drop i datapoints)).
  assert (length window = U) as Hwlen.
  { unfold window. rewrite length_take, length_drop. lia. }
  destruct (detect_contents window) as (outw & Hdw & Hlw & Hlastw).
  destruct Hlastw as (outw' & aw & -> & Haw); [lia|].
  rewrite length_app in Hlw. cbn [length] in Hlw.
  assert (outw' = []) as -> by (apply nil_length_inv; lia).
  assert (detector_after ws wf lf gf prefix = detector_after ws wf lf gf window) as Hsame.
  { rewrite (detector_after_suffix ws wf lf gf prefix). fold U. rewrite Hplen. f_equal.
    unfold prefix, window. rewrite take_drop_commute. do 2 f_equal. lia. }
  rewrite Hsame, Haw in Ha. injection Ha as ->.
  exists (detector_after ws wf lf gf datapoints), ((out1' ++ [a]) ++ out2),
    (detector_after ws wf lf gf window), a.
  split; [done|]. split; [|done].
  rewrite lookup_app_l by (rewrite length_app; simpl; lia).
  assert (length out1' = i) as <- by lia. apply list_lookup_middle. done.
Qed.
End WindowContents.


Lemma detect_sliding_witness :
  ∃ self' out self'' a,
    detect sqrt_approx ppf_quartiles (init 2 1 1 2) [1; 2; 3; 4; 5; 6; 7; 8]%Q
      = Ok (self', out) ∧
    out !! 1 = Some a ∧
    detect sqrt_approx ppf_quartiles (init 2 1 1 2) [2; 3; 4; 5; 6; 7]%Q = Ok (self'', [a]).
Proof.
  apply (detect_sliding sqrt_approx ppf_quartiles 2 1 1 2); [lia..|]. simpl. lia.
Defined.

(** X17: a detector whose lead window has no room (a lead factor, a
    window factor or a word size of zero) cannot take a datapoint: the
    first one finds the empty lead window full, and taking its oldest
    element raises [IndexError]. *)
Theorem detect_empty_lead_window np_sqrt norm_ppf ws wf lf gf datapoints :
  lf * (wf * ws) = 0 → datapoints ≠ [] →
  detect np_sqrt norm_ppf (init ws wf lf gf) datapoints = Raise IndexError.
Proof.
  intros Hzero Hne. destruct datapoints as [|d ds]; [done|].
  unfold detect, init. cbn [detect_loop]. rewrite Hzero.
  unfold detect_step. cbn [_lead_window full items maxlen length Nat.eqb].
  reflexivity.
Qed.

Lemma detect_empty_lead_window_witness :
  detect sqrt_approx ppf_quartiles (init 2 0 3 2) [1; 2]%Q = Raise IndexError.
Proof. by apply (detect_empty_lead_window sqrt_approx ppf_quartiles 2 0 3 2). Defined.

(** ** Further properties of the analyses *)


Lemma Qsum_nonpos l : Forall (λ x, (x <= 0)%Q) l → (Qsum l <= 0)%Q.
Proof. induction 1 as [|x l Hx _ IH]; simpl; lra. Qed.

Lemma Qsum_zero_inv l :
  Forall (λ x, (0 <= x)%Q) l → (Qsum l == 0)%Q → Forall (λ x, (x == 0)%Q) l.
Proof.
  induction 1 as [|x l Hx Hl IH]; [constructor|]. cbn [Qsum foldr]. fold (Qsum l).
  intros Hz. pose proof (Qsum_nonneg l Hl) as Hrest.
  constructor; [lra|]. apply IH. lra.
Qed.


(** The counts of [n] words of [word_size] letters over the alphabet add
    up to [n * (word_size - 1)]. *)
Lemma count_frequencies_words_sum words n word_size :
  length words = n →
  Forall (λ word, String.length word = word_size ∧
                  Forall (λ c, c ∈ list_ascii_of_string "abcd")
                         (list_ascii_of_string word)) words →
  (Qsum (values (_count_frequencies words "abcd" 2)) == Q_of_nat (n * (word_size - 1)))%Q.
Proof.
  intros <- Hwords. rewrite count_frequencies_sum. apply Q_of_nat_eq.
  induction Hwords as [|word words [Hlen Hword] _ IH]; [done|].
  cbn [sum_list_with length]. rewrite IH, positions_over_alphabet, Hlen by done. lia.
Qed.

Lemma values_nonneg words alphabet subword_len :
  Forall (λ v, (0 <= v)%Q) (values (_count_frequencies words alphabet subword_len)).
Proof.
  apply Forall_forall. intros v [key Hv]%elem_of_values.
  by apply count_frequencies_nonneg in Hv.
Qed.

Lemma score_zero_iff (cells1 cells2 : list Q) :
  length cells1 = length cells2 →
  (Qsum (zip_with (λ x y, (x - y) ^ 2) cells1 cells2) / Q_of_nat (4 * 4) == 0)%Q ↔
  Forall2 Qeq cells1 cells2.
Proof.
  intros Hlen. rewrite power_2_product, <- (squared_differences_zero _ _ Hlen).
  set (s := Qsum _). split; intros Hs.
  - assert (s == s / Q_of_nat (4 * 4) * Q_of_nat (4 * 4))%Q as -> by (by field).
    rewrite Hs. ring.
  - rewrite Hs. reflexivity.
Qed.

Section AnalysisContent.
Variable np_sqrt : Q → Q.
Variable norm_ppf : Q → Q.
Variables ws wf lf gf : nat.
Hypothesis Hws : 0 < ws.
Hypothesis Hwf : 0 < wf.
Hypothesis Hlf : 0 < lf.
Hypothesis Hgf : 0 < gf.

(** A run from the initial detector returns, and each of its analyses has
    every property that the scoring step gives on full windows. *)
Lemma detect_all (P : Analysis → Prop) datapoints :
  (∀ t self a,
     tracks ws wf lf gf t self → lf * (wf * ws) + gf * (wf * ws) ≤ t →
     analyse np_sqrt norm_ppf self = Ok a → P a) →
  ∃ self' out,
    detect np_sqrt norm_ppf (init ws wf lf gf) datapoints = Ok (self', out) ∧
    length out = length datapoints + 1 - (lf + gf) * wf * ws ∧
    Forall P out.
Proof.
  intros HP.
  destruct (detect_loop_spec np_sqrt norm_ppf ws wf lf gf Hws Hwf Hlf Hgf (λ _, True) P
              (λ t self a Htr Ht _ Ha, HP t self a Htr Ht Ha)
              datapoints 0 (init ws wf lf gf) [] (init_tracks ws wf lf gf))
    as (self' & out & Hdetect & _ & Hlen & Hall); [by apply Forall_true..|].
  exists self', out. split; [exact Hdetect|]. split; [simpl in Hlen; lia|done].
Qed.

(** The scoring step on full windows: the two tables it builds, their
    sums, and the cells of the two bitmaps. *)
Lemma analyse_tables t self a :
  tracks ws wf lf gf t self → lf * (wf * ws) + gf * (wf * ws) ≤ t →
  analyse np_sqrt norm_ppf self = Ok a →
  ∃ (lead_freqs lag_freqs : gmap string Q) norm_factor lead_values lag_values,
    let cell := λ v, if negb (Qeq_bool norm_factor 0) then (v / norm_factor)%Q else v in
    cells (bitmp1 a) = cell <$> lead_values ∧
    cells (bitmp2 a) = cell <$> lag_values ∧
    score a = (Qsum (zip_with (λ x y, (x - y) ^ 2) (cells (bitmp1 a)) (cells (bitmp2 a)))
               / Q_of_nat (4 * 4))%Q ∧
    lead_values ≡ₚ values lead_freqs ∧ lag_values ≡ₚ values lag_freqs ∧
    length lead_values = 16 ∧ length lag_values = 16 ∧
    py_max (values lead_freqs ++ values lag_freqs) = Ok norm_factor ∧
    Forall (λ v, (0 <= v)%Q) (values lead_freqs) ∧
    Forall (λ v, (0 <= v)%Q) (values lag_freqs) ∧
    (Qsum (values lead_freqs) == Q_of_nat (lf * (ws - 1)))%Q ∧
    (Qsum (values lag_freqs) == Q_of_nat (gf * (ws - 1)))%Q.
Proof.
  intros Htr Ht Ha. pose proof Htr as (Hconf & _ & _ & _ & HlL & HlG).
  destruct (analyse_Ok np_sqrt norm_ppf ws wf self Hws Hwf Hconf)
    as (lead_words & lag_words & norm_factor & lead_values & lag_values & Hres).
  destruct Hres as (Hlead & Hlag & _ & _ & Hmax & Hlv & Hgv & _ & _ & Hok).
  rewrite Hok in Ha. injection Ha as <-. cbn [bitmp1 bitmp2 score cells].
  destruct (get_words_Ok np_sqrt norm_ppf (_lead_window self) ws wf Hws Hwf)
    as (lead_words' & Hlead' & Hnl & Hwl).
  destruct (get_words_Ok np_sqrt norm_ppf (_lag_window self) ws wf Hws Hwf)
    as (lag_words' & Hlag' & Hng & Hwg).
  unfold get_lead_words, get_lag_words in Hlead, Hlag.
  destruct Hconf as (Hword & Hwin & _ & _). rewrite Hword, Hwin in Hlead, Hlag.
  rewrite Hlead in Hlead'. rewrite Hlag in Hlag'.
  injection Hlead' as <-. injection Hlag' as <-.
  assert (0 < wf * ws) as Hfs by nia.
  rewrite HlL in Hnl. rewrite HlG in Hng.
  replace (t `min` (lf * (wf * ws))) with (lf * (wf * ws)) in Hnl by lia.
  replace ((t - lf * (wf * ws)) `min` (gf * (wf * ws))) with (gf * (wf * ws)) in Hng by lia.
  rewrite Nat.div_mul in Hnl, Hng by lia.
  exists (_count_frequencies lead_words "abcd" 2), (_count_frequencies lag_words "abcd" 2),
    norm_factor, lead_values, lag_values. cbv zeta.
  do 3 (split; [done|]).
  split; [by apply sorted_values_Permutation|].
  split; [by apply sorted_values_Permutation|].
  split. { apply Forall2_length in Hlv.
           by rewrite sorted_keys_length, count_frequencies_size_abcd in Hlv. }
  split. { apply Forall2_length in Hgv.
           by rewrite sorted_keys_length, count_frequencies_size_abcd in Hgv. }
  split; [done|]. split; [apply values_nonneg|]. split; [apply values_nonneg|].
  split; by apply count_frequencies_words_sum.
Qed.

(** X18: the score of an analysis is zero only when the two bitmaps
    agree in every cell (and it is zero then): a score of zero means that
    the lead and the lag window have the same normalised subword counts. *)
Theorem detect_score_zero_iff datapoints :
  ∃ self' out,
    detect np_sqrt norm_ppf (init ws wf lf gf) datapoints = Ok (self', out) ∧
    length out = length datapoints + 1 - (lf + gf) * wf * ws ∧
    Forall (λ a, (score a == 0)%Q ↔ Forall2 Qeq (cells (bitmp1 a)) (cells (bitmp2 a))) out.
Proof.
  apply detect_all. intros t self a Htr Ht Ha.
  destruct (analyse_tables t self a Htr Ht Ha)
    as (lead_freqs & lag_freqs & norm_factor & lead_values & lag_values & Hres).
  destruct Hres as (Hc1 & Hc2 & -> & _ & _ & Hl1 & Hl2 & _).
  apply score_zero_iff. by rewrite Hc1, Hc2, !length_fmap, Hl1, Hl2.
Qed.


(** X20: with words of two symbols or more the common factor is a
    positive count, so the bitmaps are scaled to their greatest cell: in
    every analysis some cell of one of the two bitmaps is 1. *)
Theorem detect_peak_cell datapoints :
  1 < ws →
  ∃ self' out,
    detect np_sqrt norm_ppf (init ws wf lf gf) datapoints = Ok (self', out) ∧
    length out = length datapoints + 1 - (lf + gf) * wf * ws ∧
    Forall (λ a, Exists (λ c, (c == 1)%Q) (cells (bitmp1 a) ++ cells (bitmp2 a))) out.
Proof.
  intros Hws2. apply detect_all. intros t self a Htr Ht Ha.
  destruct (analyse_tables t self a Htr Ht Ha)
    as (lead_freqs & lag_freqs & norm_factor & lead_values & lag_values & Hres).
  destruct Hres as (-> & -> & _ & Hp1 & Hp2 & _ & _ & Hmax & Hn1 & _ & Hs1 & _).
  apply py_max_spec in Hmax as [Hin Hall].
  assert (¬ (norm_factor == 0)%Q) as Hnz.
  { intros Hz. apply Forall_app in Hall as [Hall _].
    assert (Qsum (values lead_freqs) <= 0)%Q as Hle.
    { apply Qsum_nonpos. eapply Forall_impl; [exact Hall|]. intros v Hv. cbn beta in Hv.
      by rewrite Hz in Hv. }
    rewrite Hs1 in Hle. change 0%Q with (Q_of_nat 0) in Hle.
    apply Q_of_nat_le in Hle. nia. }
  assert (Qeq_bool norm_factor 0 = false) as Hb.
  { apply not_true_iff_false. by intros ?%Qeq_bool_iff. }
  rewrite <- fmap_app. apply Exists_fmap, Exists_exists. exists norm_factor. split.
  - by rewrite Hp1, Hp2.
  - unfold compose. rewrite Hb. cbn [negb]. by field.
Qed.
End AnalysisContent.

Section OneSymbolWords.
Variable np_sqrt : Q → Q.
Variable norm_ppf : Q → Q.
Variables wf lf gf : nat.
Hypothesis Hwf : 0 < wf.
Hypothesis Hlf : 0 < lf.
Hypothesis Hgf : 0 < gf.

(** X21: a detector with words of one symbol is blind: a word of one
    letter holds no subword of two, every count is zero, and every
    analysis has two bitmaps of zeros and the score 0, whatever the
    series. *)
Theorem detect_one_symbol_words datapoints :
  ∃ self' out,
    detect np_sqrt norm_ppf (init 1 wf lf gf) datapoints = Ok (self', out) ∧
    length out = length datapoints + 1 - (lf + gf) * wf * 1 ∧
    Forall (λ a, Forall (λ c, (c == 0)%Q) (cells (bitmp1 a)) ∧
                 Forall (λ c, (c == 0)%Q) (cells (bitmp2 a)) ∧
                 (score a == 0)%Q) out.
Proof.
  apply detect_all; [lia..|]. intros t self a Htr Ht Ha.
  destruct (analyse_tables np_sqrt norm_ppf 1 wf lf gf Nat.lt_0_1 Hwf Hlf Hgf t self a
              Htr Ht Ha)
    as (lead_freqs & lag_freqs & norm_factor & lead_values & lag_values & Hres).
  destruct Hres as (Hc1 & Hc2 & Hscore & Hp1 & Hp2 & Hl1 & Hl2 & _ & Hn1 & Hn2 & Hs1 & Hs2).
  rewrite Nat.mul_0_r in Hs1, Hs2.
  assert (∀ vs : list Q, Forall (λ v, (v == 0)%Q) vs →
            Forall (λ c, (c == 0)%Q)
              ((λ v, if negb (Qeq_bool norm_factor 0) then (v / norm_factor)%Q else v) <$> vs))
    as Hcells.
  { intros vs Hvs. apply Forall_fmap. eapply Forall_impl; [exact Hvs|].
    intros v Hv. cbn [compose]. destruct (negb _); [|done]. rewrite Hv.
    unfold Qdiv. ring. }
  assert (Forall (λ c, (c == 0)%Q) (cells (bitmp1 a))) as Hz1.
  { rewrite Hc1. apply Hcells. rewrite Hp1. by apply Qsum_zero_inv. }
  assert (Forall (λ c, (c == 0)%Q) (cells (bitmp2 a))) as Hz2.
  { rewrite Hc2. apply Hcells. rewrite Hp2. by apply Qsum_zero_inv. }
  do 2 (split; [done|]). rewrite Hscore.
  apply score_zero_iff; [by rewrite Hc1, Hc2, !length_fmap, Hl1, Hl2|].
  assert (length (cells (bitmp1 a)) = length (cells (bitmp2 a))) as Hlen
    by (by rewrite Hc1, Hc2, !length_fmap, Hl1, Hl2).
  revert Hz1 Hz2 Hlen. generalize (cells (bitmp1 a)) (cells (bitmp2 a)).
  intros l k Hl. revert k. induction Hl as [|x l Hx _ IH]; intros [|y k] Hk Hlen;
    simpl in Hlen; try lia; [constructor|].
  apply Forall_cons in Hk as [Hy Hk]. constructor; [by rewrite Hx, Hy|].
  apply IH; [done|lia].
Qed.
End OneSymbolWords.

Lemma detect_score_zero_iff_witness :
  ∃ self' out,
    detect sqrt_approx ppf_quartiles (init 2 1 1 2) [1; 2; 3; 4; 5; 6; 7; 8]%Q
      = Ok (self', out) ∧
    length out = length [1; 2; 3; 4; 5; 6; 7; 8]%Q + 1 - (1 + 2) * 1 * 2 ∧
    Forall (λ a, (score a == 0)%Q ↔ Forall2 Qeq (cells (bitmp1 a)) (cells (bitmp2 a))) out.
Proof. apply (detect_score_zero_iff sqrt_approx ppf_quartiles 2 1 1 2); lia. Defined.


Lemma detect_peak_cell_witness :
  ∃ self' out,
    detect sqrt_approx ppf_quartiles (init 2 1 1 2) [1; 2; 3; 4; 5; 6; 7; 8]%Q
      = Ok (self', out) ∧
    length out = length [1; 2; 3; 4; 5; 6; 7; 8]%Q + 1 - (1 + 2) * 1 * 2 ∧
    Forall (λ a, Exists (λ c, (c == 1)%Q) (cells (bitmp1 a) ++ cells (bitmp2 a))) out.
Proof. apply (detect_peak_cell sqrt_approx ppf_quartiles 2 1 1 2); lia. Defined.

Lemma detect_one_symbol_words_witness :
  ∃ self' out,
    detect sqrt_approx ppf_quartiles (init 1 2 1 2) [1; 2; 3; 4; 5; 6; 7; 8]%Q
      = Ok (self', out) ∧
    length out = length [1; 2; 3; 4; 5; 6; 7; 8]%Q + 1 - (1 + 2) * 2 * 1 ∧
    Forall (λ a, Forall (λ c, (c == 0)%Q) (cells (bitmp1 a)) ∧
                 Forall (λ c, (c == 0)%Q) (cells (bitmp2 a)) ∧
                 (score a == 0)%Q) out.
Proof. apply (detect_one_symbol_words sqrt_approx ppf_quartiles 2 1 2); lia. Defined.

(** ** A constant offset *)








Section Offset.
Variable np_sqrt : Q → Q.
Variable norm_ppf : Q → Q.
Hypothesis np_sqrt_Qeq : ∀ x y, (x == y)%Q → (np_sqrt x == np_sqrt y)%Q.


















End Offset.




(** ** The words of the two windows *)

Section WindowWords.
Variable np_sqrt : Q → Q.
Variable norm_ppf : Q → Q.
Variables ws wf lf gf : nat.
Hypothesis Hws : 0 < ws.
Hypothesis Hwf : 0 < wf.
Hypothesis Hlf : 0 < lf.
Hypothesis Hgf : 0 < gf.

End WindowWords.

